(** * Informer: the queryable event emitter of protoblast (lib/informer.js)

    A shallow embedding of the Informer class and a verification of its
    documented behaviour.  The emitter's five fields are a record, the
    JavaScript heap (function objects with their captured variables) is an
    explicit store, listeners supplied by client code are scripts over the
    capabilities the emitter hands to them, and every method threads the
    store and may raise a fault.

    Scope of the value model: numbers are integers and filter attributes
    hold primitive values.  The registry objects are plain objects, so a
    type name that names a member of [Object.prototype] reads as that
    member where the object has no property of its own. *)

From Stdlib Require Import ZArith String Ascii Bool List Lia.
From stdpp Require Import base gmap strings list.
Import ListNotations.

Local Open Scope Z_scope.
Local Open Scope string_scope.
Local Open Scope list_scope.

(** ** Values *)

(** Function objects are compared by reference: a function is its address. *)
Definition fid := nat.

(** Primitive values, the attribute values of filter objects. *)
Inductive prim :=
| PUndefined
| PNull
| PBool (b : bool)
| PNum (n : Z)
| PStr (s : string).

(** A plain object: its own enumerable properties, in insertion order. *)
Definition obj := list (string * prim).

Inductive value :=
| VPrim (p : prim)
| VError (name msg : string)      (* an instance of Error *)
| VFun (f : fid)
| VObj (o : obj)
| VPair (a b : value).            (* a two-element array [a, b] *)

Abbreviation VUndefined := (VPrim PUndefined).

(** JavaScript truthiness. *)
Definition truthy_prim (p : prim) : bool :=
  match p with
  | PUndefined | PNull => false
  | PBool b => b
  | PNum n => negb (Z.eqb n 0)
  | PStr s => negb (String.eqb s "")
  end.

Definition truthy (v : value) : bool :=
  match v with
  | VPrim p => truthy_prim p
  | _ => true
  end.

(** *** Loose equality [==] on primitives *)

Definition is_space (c : ascii) : bool :=
  let n := nat_of_ascii c in
  (Nat.eqb n 32 || (Nat.leb 9 n && Nat.leb n 13))%bool.

Definition digit_of (c : ascii) : option Z :=
  let n := nat_of_ascii c in
  if (Nat.leb 48 n && Nat.leb n 57)%bool then Some (Z.of_nat (n - 48)) else None.

Fixpoint all_space (s : string) : bool :=
  match s with
  | EmptyString => true
  | String c r => (is_space c && all_space r)%bool
  end.

Fixpoint trim_left (s : string) : string :=
  match s with
  | EmptyString => EmptyString
  | String c r => if is_space c then trim_left r else s
  end.

(** Digits up to trailing white space; [seen] says a digit was read. *)
Fixpoint digits (seen : bool) (acc : Z) (s : string) : option Z :=
  match s with
  | EmptyString => if seen then Some acc else None
  | String c r =>
      match digit_of c with
      | Some d => digits true (10 * acc + d) r
      | None => if (seen && all_space s)%bool then Some acc else None
      end
  end.

(** ToNumber on strings, for integer decimal literals; [None] is NaN. *)
Definition string_to_number (s : string) : option Z :=
  match trim_left s with
  | EmptyString => Some 0
  | String "-"%char r => Z.opp <$> digits false 0 r
  | String "+"%char r => digits false 0 r
  | t => digits false 0 t
  end.

Definition to_number (p : prim) : option Z :=
  match p with
  | PBool b => Some (if b then 1 else 0)
  | PNum n => Some n
  | PStr s => string_to_number s
  | PUndefined | PNull => None
  end.

Definition loose_eq (x y : prim) : bool :=
  match x, y with
  | (PUndefined | PNull), (PUndefined | PNull) => true
  | (PUndefined | PNull), _ => false
  | _, (PUndefined | PNull) => false
  | PStr a, PStr b => String.eqb a b
  | _, _ =>
      match to_number x, to_number y with
      | Some a, Some b => Z.eqb a b
      | _, _ => false
      end
  end.

(** ** Filter objects and type descriptors *)

(** [o[k]]: the first binding of [k], or undefined. *)
Fixpoint prop (o : obj) (k : string) : prim :=
  match o with
  | [] => PUndefined
  | (k', v) :: r => if String.eqb k k' then v else prop r k
  end.

Definition keys (o : obj) : list string := map fst o.

(** The loop [for (key in stored) if (stored[key] != emitted[key]) doit = false]. *)
Definition key_subset_match (stored emitted : obj) : bool :=
  forallb (fun k => loose_eq (prop stored k) (prop emitted k)) (keys stored).

(** The [type] argument of every method: a string or a filter object. *)
Inductive descriptor :=
| TStr (s : string)
| TFilter (f : obj).

(** [typeof type.type === 'string' ? type.type : ''] *)
Definition filter_typeName (f : obj) : string :=
  match prop f "type" with
  | PStr s => s
  | _ => ""
  end.

Definition typeName_of (d : descriptor) : string :=
  match d with
  | TStr s => s
  | TFilter f => filter_typeName f
  end.

Definition filter_of (d : descriptor) : option obj :=
  match d with
  | TStr _ => None
  | TFilter f => Some f
  end.

Definition descriptor_value (d : descriptor) : value :=
  match d with
  | TStr s => VPrim (PStr s)
  | TFilter f => VObj f
  end.

(** ** Plain objects

    The registry keeps its lists in plain objects ([{}]).  Reading a name
    off a plain object that has no own property of that name gives the
    member of [Object.prototype] of that name, if there is one.  These
    members are functions, of the [length] given here, except
    [__proto__], which reads as the prototype object itself (an object
    without a [length]). *)

Inductive inherited_member :=
| ProtoFunction (length : nat)
| ProtoObject.

Definition Object_prototype_members : list (string * inherited_member) :=
  [ ("constructor", ProtoFunction 1);
    ("toString", ProtoFunction 0);
    ("toLocaleString", ProtoFunction 0);
    ("valueOf", ProtoFunction 0);
    ("hasOwnProperty", ProtoFunction 1);
    ("isPrototypeOf", ProtoFunction 1);
    ("propertyIsEnumerable", ProtoFunction 1);
    ("__defineGetter__", ProtoFunction 2);
    ("__defineSetter__", ProtoFunction 2);
    ("__lookupGetter__", ProtoFunction 1);
    ("__lookupSetter__", ProtoFunction 1);
    ("__proto__", ProtoObject) ].

Definition Object_prototype (name : string) : option inherited_member :=
  snd <$> List.find (fun m => String.eqb name (fst m)) Object_prototype_members.

(** What [object[name]] reads. *)
Inductive slot (A : Type) :=
| Own (v : A)
| Inherited (m : inherited_member)
| Absent.
Arguments Own {A} v.
Arguments Inherited {A} m.
Arguments Absent {A}.

Definition read {A} (object : gmap string A) (name : string) : slot A :=
  match object !! name with
  | Some v => Own v
  | None =>
      match Object_prototype name with
      | Some m => Inherited m
      | None => Absent
      end
  end.

(** ** State and faults *)

Inductive outcome (A : Type) :=
| Ok (a : A)
| Fault (e : value)              (* an exception was thrown *)
| Exhausted.                     (* the call depth bound was reached *)
Arguments Ok {A} a.
Arguments Fault {A} e.
Arguments Exhausted {A}.

Definition TypeError (msg : string) : value := VError "TypeError" msg.

(** Reading property [name] of [undefined]. *)
Definition of_undefined (name : string) : value :=
  TypeError ("Cannot read property '" ++ name ++ "' of undefined").

(** ** The emitter *)

Record Informer := mkInformer {
  simpleListeners : gmap string (list fid);
  filterListeners : gmap string (list (fid * obj));
  listenTypes : list string;
  simpleSeen : gmap string bool;
  filterSeen : list obj
}.

(** [new Informer()] *)
Definition new_Informer : Informer :=
  mkInformer ∅ ∅ [] ∅ [].

(** The array [queryListeners] returns: two metadata slots, then entries
    [[listener, filter]] (filter listeners) or [[listener]] (simple ones).
    The listener of an entry read off an inherited function is
    [undefined]. *)
Record query := mkQuery {
  q_typeName : string;
  q_filter : option obj;
  q_entries : list (option fid * option obj)
}.

Definition q_length (q : query) : nat := 2 + length (q_entries q).

(** The slots a filter is looked up under. *)
Definition search_types (E : Informer) (typeName : string) : list string :=
  if truthy_prim (PStr typeName) then [typeName; ""] else listenTypes E.

(** The filter listeners of one stored list that an emitted filter
    reaches. *)
Definition matching (filter : obj) (listeners : list (fid * obj))
  : list (fid * obj) :=
  List.filter (fun entry => key_subset_match (snd entry) filter) listeners.


(** The loop over [types] in [queryListeners].  An inherited function of
    non-zero [length] has [undefined] at every index, and reading
    [entry[1]] of it throws. *)
Fixpoint scan_types (filterListeners : gmap string (list (fid * obj)))
    (filter : obj) (types : list string) : outcome (list (fid * obj)) :=
  match types with
  | [] => Ok []
  | t :: rest =>
      match read filterListeners t with
      | Inherited (ProtoFunction (S _)) => Fault (of_undefined "1")
      | Own listeners =>
          match scan_types filterListeners filter rest with
          | Ok found => Ok (matching filter listeners ++ found)
          | Fault e => Fault e
          | Exhausted => Exhausted
          end
      | Inherited _ | Absent => scan_types filterListeners filter rest
      end
  end.

(** [if (typeName) { listeners = this.simpleListeners[typeName]; ... }] *)
Definition simple_entries (E : Informer) (typeName : string)
  : list (option fid * option obj) :=
  if truthy_prim (PStr typeName) then
    match read (simpleListeners E) typeName with
    | Absent => []
    | Own listeners => map (fun l => (Some l, None)) listeners
    | Inherited (ProtoFunction length) => repeat (None, None) length
    | Inherited ProtoObject => []
    end
  else [].

(** The emitter is returned as the method leaves it, also when it
    throws.  (Assigning [true] to the name ['__proto__'] leaves a plain
    object as it is; that name reads truthy either way.) *)
Definition queryListeners (E : Informer) (type : descriptor) (markAsSeen : value)
  : Informer * outcome query :=
  let typeName := typeName_of type in
  let filter := filter_of type in
  (* this.simpleSeen[typeName] = true *)
  let seen := <[typeName := true]> (simpleSeen E) in
  let fseen :=
    match filter with
    | Some f => filterSeen E ++ [f]
    | None => filterSeen E
    end in
  (mkInformer (simpleListeners E) (filterListeners E) (listenTypes E) seen fseen,
   match filter with
   | Some f =>
       match scan_types (filterListeners E) f (search_types E typeName) with
       | Ok found =>
           Ok (mkQuery typeName filter
                 (map (fun e => (Some (fst e), Some (snd e))) found
                  ++ simple_entries E typeName))
       | Fault e => Fault e
       | Exhausted => Exhausted
       end
   | None => Ok (mkQuery typeName filter (simple_entries E typeName))
   end).

(** [listeners(type)]: [queryListeners(type).slice(2)] *)
Definition listeners (E : Informer) (type : descriptor)
  : Informer * outcome (list (option fid * option obj)) :=
  let '(E', r) := queryListeners E type VUndefined in
  (E', match r with
       | Ok q => Ok (q_entries q)
       | Fault e => Fault e
       | Exhausted => Exhausted
       end).

(** The loop over [types] in [hasBeenSeen]. *)
Fixpoint seen_in_types (filterListeners : gmap string (list (fid * obj)))
    (filter : obj) (types : list string) : outcome bool :=
  match types with
  | [] => Ok false
  | t :: rest =>
      match read filterListeners t with
      | Inherited (ProtoFunction (S _)) => Fault (of_undefined "1")
      | Own listeners =>
          if existsb (fun entry => key_subset_match (snd entry) filter) listeners
          then Ok true
          else seen_in_types filterListeners filter rest
      | Inherited _ | Absent => seen_in_types filterListeners filter rest
      end
  end.

Definition hasBeenSeen (E : Informer) (type : descriptor) : outcome bool :=
  match type with
  | TStr s =>
      (* if (this.simpleSeen[type]) *)
      Ok match read (simpleSeen E) s with
         | Own b => b
         | Inherited _ => true
         | Absent => false
         end
  | TFilter filter =>
      seen_in_types (filterListeners E) filter
                    (search_types E (filter_typeName filter))
  end.

(** ** Dispatch contexts, listeners and the store *)

(** The object [Object.create(that)] handed to a listener as [this], with
    the properties the emitter and the listener set on it. *)
Record context := mkContext {
  c_type : string;
  c_filter : option obj;
  c_wait : bool;                 (* the [wait] capability is reachable *)
  c_past : bool;
  c_async : prim;
  c_err : value;
  c_ListenerIsDone : bool;
  c_ListenerSaysStop : bool
}.

(** What a listener written by client code does with its [this]. *)
Inductive action :=
| SetStop                                             (* this.ListenerSaysStop = true *)
| Wait (mode : prim) (finish : option value)          (* this.wait(mode), then maybe done(err) *)
| Raise (e : value)                                   (* throw e *)
| CallOn (type : descriptor) (listener : value)
| CallMany (type : descriptor) (times listener : value)
| CallAfter (type : descriptor) (times listener : value)
| CallAfterOnce (type : descriptor) (times listener : value)
| CallRemoveListener (type : descriptor) (listener : value)
| CallEmit (type : descriptor) (args : list value)
| CallEmitOnce (type : descriptor) (data : value).

(** A function object.  [Shim] is the function [g] that [many] and [after]
    build, with the variables it captures; [g.listener] is [g_listener]. *)
Inductive closure :=
| User (body : list action)
| Shim (g_type : descriptor) (g_times : Z) (g_listener : fid) (g_fired : Z).

Record call_record := mkCall {
  cr_fn : fid;
  cr_this : option context;
  cr_args : list value
}.

Record world := mkWorld {
  heap : list closure;
  informer : Informer;
  trace : list call_record       (* every function call made, oldest first *)
}.

Definition new_world (h : list closure) : world := mkWorld h new_Informer [].

(** ** The state monad *)

Definition M (A : Type) : Type := world -> world * outcome A.

Definition ret {A} (a : A) : M A := fun w => (w, Ok a).
Definition fault {A} (e : value) : M A := fun w => (w, Fault e).
Definition exhausted {A} : M A := fun w => (w, Exhausted).

Definition bind {A B} (m : M A) (k : A -> M B) : M B :=
  fun w =>
    match m w with
    | (w', Ok a) => k a w'
    | (w', Fault e) => (w', Fault e)
    | (w', Exhausted) => (w', Exhausted)
    end.

Notation "x <- m ;; k" := (bind m (fun x => k))
  (at level 100, m at next level, right associativity).
Notation "m ;;; k" := (bind m (fun _ => k))
  (at level 100, right associativity).

(** The result of a method that only reads the state. *)
Definition lift {A} (r : outcome A) : M A := fun w => (w, r).

(** [try { m } catch (e) { ... }]: the thrown value is handed back. *)
Definition attempt {A} (m : M A) : M (A + value) :=
  fun w =>
    match m w with
    | (w', Ok a) => (w', Ok (inl a))
    | (w', Fault e) => (w', Ok (inr e))
    | (w', Exhausted) => (w', Exhausted)
    end.

Definition get_informer : M Informer := fun w => (w, Ok (informer w)).
Definition set_informer (E : Informer) : M unit :=
  fun w => (mkWorld (heap w) E (trace w), Ok tt).
Definition get_heap : M (list closure) := fun w => (w, Ok (heap w)).
Definition set_heap (h : list closure) : M unit :=
  fun w => (mkWorld h (informer w) (trace w), Ok tt).
Definition record_call (r : call_record) : M unit :=
  fun w => (mkWorld (heap w) (informer w) (trace w ++ [r]), Ok tt).

(** A method that touches the emitter only. *)
Definition on_informer {A} (method : Informer -> Informer * outcome A) : M A :=
  fun w => (mkWorld (heap w) (fst (method (informer w))) (trace w),
            snd (method (informer w))).

(** A new function object; its address is the next free one. *)
Definition alloc (c : closure) : M fid :=
  h <- get_heap ;; set_heap (h ++ [c]) ;;; ret (length h).

Definition dquote : string := String (ascii_of_nat 34) EmptyString.
Definition uncaught_error_msg : string :=
  "Uncaught, unspecified " ++ dquote ++ "error" ++ dquote ++ " event.".

(** [array.last()] of lib/array.js: [this[this.length-1]]. *)
Definition array_last (l : list value) : value := List.last l VUndefined.

(** [Object.create(that)] with [type], [filter] and [wait] set, as [emit]
    builds it; [that] is the emitter ([None]) or the context the method
    was reached through, whose other properties are inherited. *)
Definition dispatch_context (that : option context) (typeName : string)
    (filter : option obj) : context :=
  match that with
  | None => mkContext typeName filter true false PUndefined VUndefined false false
  | Some c =>
      mkContext typeName filter true (c_past c) (c_async c) (c_err c)
                (c_ListenerIsDone c) (c_ListenerSaysStop c)
  end.

(** The context [after] builds: [type], [filter] and [past] set. *)
Definition past_context (that : option context) (typeName : string)
    (filter : option obj) : context :=
  match that with
  | None => mkContext typeName filter false true PUndefined VUndefined false false
  | Some c =>
      mkContext typeName filter (c_wait c) true (c_async c) (c_err c)
                (c_ListenerIsDone c) (c_ListenerSaysStop c)
  end.

(** [wait(type)]: records the mode; the function it returns, when called
    with [err] within the same turn, stores [err] and sets the done flag. *)
Definition wait (c : context) (mode : prim) : context :=
  mkContext (c_type c) (c_filter c) (c_wait c) (c_past c) mode (c_err c)
            (c_ListenerIsDone c) (c_ListenerSaysStop c).

Definition wait_next (c : context) (err : value) : context :=
  mkContext (c_type c) (c_filter c) (c_wait c) (c_past c) (c_async c) err
            true (c_ListenerSaysStop c).

(** [stop()]: [this.ListenerSaysStop = true]. *)
Definition stop (c : context) : context :=
  mkContext (c_type c) (c_filter c) (c_wait c) (c_past c) (c_async c) (c_err c)
            (c_ListenerIsDone c) true.

(** ** The task runners *)

(** The variables of one [emit] activation that its tasks and completion
    handlers share.  [invoked] is a ghost: the listeners this emission has
    called and seen return, oldest first. *)
Record emission := mkEmission {
  shouldBeStopped : value;
  isAsync : value;
  subtasks : list context;
  invoked : list fid
}.

Definition fresh_emission : emission :=
  mkEmission VUndefined VUndefined [] [].

(** How a callback-style task ends: it called [next(err)] and then ran
    [afterwards] once [next] had returned, or it returned without calling
    [next]. *)
Inductive task_step :=
| Next (err : value) (afterwards : emission -> emission)
| Suspended.

Definition task := emission -> M (emission * task_step).

(** Modelled from the spec: [Blast.Bound.Function.series] (lib/function_flow.js
    is missing).  It "invokes an ordered list of callback-style tasks one at a
    time, in order, immediately, and reports the first error": the next task
    starts inside the call of [next], a fault of a task or an error given to
    [next] goes to [done] and ends the run, and [done] is called once. *)
Fixpoint series (tasks : list task) (done : emission -> value -> M emission)
    (em : emission) : M emission :=
  match tasks with
  | [] => done em VUndefined
  | t :: rest =>
      r <- attempt (t em) ;;
      match r with
      | inr e => done em e
      | inl (em1, Suspended) => ret em1
      | inl (em1, Next err afterwards) =>
          em2 <- (if truthy err then done em1 err else series rest done em1) ;;
          ret (afterwards em2)
      end
  end.

(** How a parallel sub-task ends within the turn. *)
Inductive sub_step :=
| SubNext (err : value)
| SubPending.

(** Modelled from the spec: [Blast.Bound.Function.parallel] (missing as well).
    It "invokes all tasks ... and reports aggregate completion/first-or-combined
    error": [Some err] is what [done] receives within the turn, [None] means
    some task has not completed yet. *)
Fixpoint parallel (steps : list sub_step) : option value :=
  match steps with
  | [] => Some VUndefined
  | SubNext err :: rest => if truthy err then Some err else parallel rest
  | SubPending :: rest =>
      match parallel rest with
      | Some err => if truthy err then Some err else None
      | None => None
      end
  end.

(** The object the runner applies each task to, as [doListener] observes
    it through [this]: whether [this.ListenerSaysStop], [this.type] and
    [this.ListenerIsDone] are truthy, and whether [this.type == 'series']. *)
Record task_receiver := mkReceiver {
  r_ListenerSaysStop : bool;
  r_type : bool;
  r_ListenerIsDone : bool;
  r_type_is_series : bool
}.

(** A task called as a plain function of a non-strict module: [this] is the
    global object, which has none of the three properties. *)
Definition plain_receiver : task_receiver :=
  mkReceiver false false false false.

Definition has_key {A} (m : gmap string A) (k : string) : bool :=
  match m !! k with
  | Some _ => true
  | None => false
  end.

Definition is_error_type (type : descriptor) : bool :=
  match type with
  | TStr s => String.eqb s "error"
  | TFilter _ => false
  end.

(** ** The methods, over the function-call relation *)

Section Methods.

(** The receiver the task runner gives to tasks. *)
Variable task_this : task_receiver.

(** [f.apply(this, args)]: returns [this] as the callee left it. *)
Variable call : fid -> option context -> list value -> M (option context).

(** *** emit *)

(** [function doListener(next)]: the task built for one entry of the
    query.  The listener is called with a new context; everything after
    the call reads the task's own [this]. *)
Definition doListener (that : option context) (q : query) (args : list value)
    (entry : option fid * option obj) : task :=
  fun em =>
    let context := dispatch_context that (q_typeName q) (q_filter q) in
    match fst entry with
    | None =>
        (* listeners[index][0] is undefined *)
        fault (of_undefined "call")
    | Some listener =>
        this' <- call listener (Some context) args ;;
        let context' := match this' with Some c => c | None => context end in
        let em :=
          mkEmission (if r_ListenerSaysStop task_this
                      then VPrim (PBool true) else shouldBeStopped em)
                     (if r_type task_this
                      then VPrim (PBool true) else isAsync em)
                     (subtasks em) (invoked em ++ [listener]) in
        if (negb (r_type task_this) || r_ListenerIsDone task_this)%bool
        then ret (em, Next VUndefined (fun e => e))
        else if r_type_is_series task_this
        then ret (em, Suspended)
        else ret (em, Next VUndefined
                    (fun e => mkEmission (shouldBeStopped e) (isAsync e)
                                         (subtasks e ++ [context']) (invoked e)))
    end.

(** [function eachListener(listener, index)], for [index >= 2]: unless
    [shouldBeStopped] is set while the list is built, one more task. *)
Definition eachListener (that : option context) (q : query) (args : list value)
    (em : emission) (tasks : list task) (entry : option fid * option obj)
    : list task :=
  if truthy (shouldBeStopped em) then tasks
  else tasks ++ [doListener that q args entry].

(** [function parallelHandler(nextSub)] *)
Definition parallelHandler (context : context) : sub_step :=
  if c_ListenerIsDone context then SubNext (c_err context) else SubPending.

(** [cb(err, shouldBeStopped)] *)
Definition call_cb (cb : fid) (err : value) (em : emission) : M emission :=
  call cb None [err; shouldBeStopped em] ;;; ret em.

Definition seriesDone (args : list value) (em : emission) (err : value)
    : M emission :=
  if negb (truthy (isAsync em)) then
    if truthy err then fault err else ret em
  else
    match array_last args with
    | VFun cb =>
        match subtasks em with
        | [] => call_cb cb err em
        | subs =>
            match parallel (map parallelHandler subs) with
            | Some subErr =>
                (* function parallelDone(subErr) *)
                let err := if (truthy err && truthy subErr)%bool
                           then VPair err subErr else err in
                call_cb cb err em
            | None => ret em
            end
        end
    | _ => if truthy err then fault err else ret em
    end.

(** [emit(type, ...args)], called on the emitter ([that = None]) or
    through a dispatch context.  The emission's variables are returned
    for observation; the method itself returns [this]. *)
Definition emit (that : option context) (type : descriptor) (args : list value)
    : M emission :=
  listeners <- on_informer (fun E => queryListeners E type (VPrim (PBool true))) ;;
  let none_found := Nat.ltb (q_length listeners) 3 in
  if (is_error_type type && none_found)%bool then
    match hd VUndefined args with
    | VError n m => fault (VError n m)
    | _ => fault (TypeError uncaught_error_msg)
    end
  else if none_found then ret fresh_emission
  else
    let em := fresh_emission in
    let tasks :=
      fold_left (eachListener that listeners args em) (q_entries listeners) [] in
    series tasks (seriesDone args) em.

(** *** Subscription *)

(** [target[typeName].push(entry)] on an inherited member. *)
Definition not_an_array : value :=
  TypeError "target[typeName].push is not a function".

(** [listener.listener ? listener.listener : listener] *)
Definition unwrapped (h : list closure) (l : fid) : fid :=
  match h !! l with
  | Some (Shim _ _ orig _) => orig
  | _ => l
  end.

Definition addListener (that : option context) (type : descriptor)
    (listener : value) : M unit :=
  match listener with
  | VFun l =>
      let typeName := typeName_of type in
      E <- get_informer ;;
      h <- get_heap ;;
      (if (has_key (simpleListeners E) "newListener"
           || has_key (filterListeners E) "newListener")%bool
       then emit that (TStr "newListener")
              [descriptor_value type; VFun (unwrapped h l); VPrim (PStr typeName)]
            ;;; ret tt
       else ret tt) ;;;
      E <- get_informer ;;
      match type with
      | TStr _ =>
          match read (simpleListeners E) typeName with
          | Own ls =>
              set_informer
                (mkInformer (<[typeName := ls ++ [l]]> (simpleListeners E))
                            (filterListeners E) (listenTypes E)
                            (simpleSeen E) (filterSeen E))
          | Absent =>
              set_informer
                (mkInformer (<[typeName := [l]]> (simpleListeners E))
                            (filterListeners E) (listenTypes E ++ [typeName])
                            (simpleSeen E) (filterSeen E))
          | Inherited _ =>
              (* the inherited member is truthy and has no [push] *)
              fault not_an_array
          end
      | TFilter filter =>
          match read (filterListeners E) typeName with
          | Own ls =>
              set_informer
                (mkInformer (simpleListeners E)
                            (<[typeName := ls ++ [(l, filter)]]> (filterListeners E))
                            (listenTypes E) (simpleSeen E) (filterSeen E))
          | Absent =>
              set_informer
                (mkInformer (simpleListeners E)
                            (<[typeName := [(l, filter)]]> (filterListeners E))
                            (listenTypes E ++ [typeName])
                            (simpleSeen E) (filterSeen E))
          | Inherited _ => fault not_an_array
          end
      end
  | _ => fault (TypeError "listener must be a function")
  end.

(** [typeof times !== 'number'] shifts the arguments. *)
Definition times_and_listener (default : Z) (times listener : value)
    : Z * value :=
  match times with
  | VPrim (PNum n) => (n, listener)
  | _ => (default, times)
  end.

Definition many (that : option context) (type : descriptor)
    (times listener : value) : M unit :=
  let '(times, listener) := times_and_listener 1 times listener in
  match listener with
  | VFun l =>
      g <- alloc (Shim type times l 0) ;;
      addListener that type (VFun g)
  | _ => fault (TypeError "listener must be a function")
  end.

Definition after (that : option context) (type : descriptor)
    (times listener : value) : M unit :=
  let '(times, listener) := times_and_listener (-1) times listener in
  match listener with
  | VFun l =>
      g <- alloc (Shim type times l 0) ;;
      addListener that type (VFun g) ;;;
      E <- get_informer ;;
      seen <- lift (hasBeenSeen E type) ;;
      if seen : bool then
        let context := past_context that (typeName_of type) (filter_of type) in
        call g (Some context) [] ;;; ret tt
      else ret tt
  | _ => fault (TypeError "listener must be a function")
  end.

Definition afterOnce (that : option context) (type : descriptor)
    (times listener : value) : M unit :=
  let '(times, listener) := times_and_listener 1 times listener in
  after that type (VPrim (PNum times)) listener.

(** *** Removal *)

(** [array.splice(i, 1)] *)
Definition splice1 {A} (i : nat) (l : list A) : list A :=
  take i l ++ drop (S i) l.

(** [entry == listenerToRemove || entry.listener == listenerToRemove] *)
Definition same_listener (h : list closure) (entry target : fid) : bool :=
  (Nat.eqb entry target
   || match h !! entry with
      | Some (Shim _ _ orig _) => Nat.eqb orig target
      | _ => false
      end)%bool.

Definition notify_removed (that : option context) (type : descriptor)
    (removed : value) : M unit :=
  E <- get_informer ;;
  if has_key (simpleListeners E) "removeListener"
  then emit that (TStr "removeListener") [descriptor_value type; removed] ;;; ret tt
  else ret tt.

(** The loop [for (i = listeners.length-1; i >= 0; i--)] over the live
    array of a string type; [n] is [i + 1]. *)
Fixpoint remove_simple (that : option context) (type : string) (target : fid)
    (n : nat) : M unit :=
  match n with
  | O => ret tt
  | S i =>
      E <- get_informer ;;
      h <- get_heap ;;
      let ls := default [] (simpleListeners E !! type) in
      match ls !! i with
      | None =>
          (* listeners[i] is undefined: reading [.listener] of it throws *)
          fault (of_undefined "listener")
      | Some entry =>
          (if same_listener h entry target then
             set_informer
               (mkInformer (<[type := splice1 i ls]> (simpleListeners E))
                           (filterListeners E) (listenTypes E)
                           (simpleSeen E) (filterSeen E)) ;;;
             notify_removed that (TStr type) (VFun entry)
           else ret tt) ;;;
          remove_simple that type target i
      end
  end.

(** The same loop over the filter listeners of a type name.  A stored
    filter that is the very object [type] also matches it key by key,
    so the identity test of the source needs no case of its own. *)
Fixpoint remove_filtered (that : option context) (type : obj) (target : fid)
    (n : nat) : M unit :=
  match n with
  | O => ret tt
  | S i =>
      E <- get_informer ;;
      h <- get_heap ;;
      let typeName := filter_typeName type in
      let ls := default [] (filterListeners E !! typeName) in
      match ls !! i with
      | None => fault (of_undefined "0")
      | Some entry =>
          (if (same_listener h (fst entry) target
               && key_subset_match (snd entry) type)%bool then
             set_informer
               (mkInformer (simpleListeners E)
                           (<[typeName := splice1 i ls]> (filterListeners E))
                           (listenTypes E) (simpleSeen E) (filterSeen E)) ;;;
             notify_removed that (TFilter type)
                            (VPair (VFun (fst entry)) (VObj (snd entry)))
           else ret tt) ;;;
          remove_filtered that type target i
      end
  end.

Definition removeListener (that : option context) (type : descriptor)
    (listenerToRemove : value) : M unit :=
  match listenerToRemove with
  | VFun target =>
      E <- get_informer ;;
      match type with
      | TStr s =>
          match read (simpleListeners E) s with
          | Own ls => remove_simple that s target (length ls)
          | Inherited (ProtoFunction (S _)) =>
              (* listeners[i] is undefined *)
              fault (of_undefined "listener")
          | Inherited _ | Absent => ret tt
          end
      | TFilter f =>
          match read (filterListeners E) (filter_typeName f) with
          | Own ls => remove_filtered that f target (length ls)
          | Inherited (ProtoFunction (S _)) => fault (of_undefined "0")
          | Inherited _ | Absent => ret tt
          end
      end
  | _ => fault (TypeError "listener must be a function")
  end.

(** *** emitOnce *)

Definition emitOnce (that : option context) (type : descriptor) (data : value)
    : M unit :=
  E <- get_informer ;;
  seen <- lift (hasBeenSeen E type) ;;
  if negb seen then emit that type [data] ;;; ret tt
  else ret tt.

(** *** Listener bodies *)

Definition no_method (name : string) : value :=
  TypeError ("this." ++ name ++ " is not a function").

(** One statement of a client listener, run with [this]; a listener
    called as a plain function has no emitter behind its [this]. *)
Definition run_action (a : action) (this : option context)
    : M (option context) :=
  match a, this with
  | SetStop, Some c => ret (Some (stop c))
  | SetStop, None => ret None
  | Wait mode finish, Some c =>
      if c_wait c then
        let c1 := wait c mode in
        ret (Some (match finish with
                   | Some err => wait_next c1 err
                   | None => c1
                   end))
      else fault (no_method "wait")
  | Wait _ _, None => fault (no_method "wait")
  | Raise e, _ => fault e
  | CallOn type l, Some _ => addListener this type l ;;; ret this
  | CallOn _ _, None => fault (no_method "on")
  | CallMany type times l, Some _ => many this type times l ;;; ret this
  | CallMany _ _ _, None => fault (no_method "many")
  | CallAfter type times l, Some _ => after this type times l ;;; ret this
  | CallAfter _ _ _, None => fault (no_method "after")
  | CallAfterOnce type times l, Some _ => afterOnce this type times l ;;; ret this
  | CallAfterOnce _ _ _, None => fault (no_method "afterOnce")
  | CallRemoveListener type l, Some _ => removeListener this type l ;;; ret this
  | CallRemoveListener _ _, None => fault (no_method "removeListener")
  | CallEmit type args, Some _ => emit this type args ;;; ret this
  | CallEmit _ _, None => fault (no_method "emit")
  | CallEmitOnce type data, Some _ => emitOnce this type data ;;; ret this
  | CallEmitOnce _ _, None => fault (no_method "emitOnce")
  end.

Fixpoint run_script (body : list action) (this : option context)
    : M (option context) :=
  match body with
  | [] => ret this
  | a :: rest => this' <- run_action a this ;; run_script rest this'
  end.

(** The body of the function [g] of [many] and [after], at address [f]. *)
Definition run_shim (f : fid) (type : descriptor) (times : Z) (listener : fid)
    (fired : Z) (this : option context) (args : list value)
    : M (option context) :=
  h <- get_heap ;;
  set_heap (<[f := Shim type times listener (fired + 1)]> h) ;;;
  (if Z.eqb (fired + 1) times then
     match this with
     | Some _ => removeListener this type (VFun f)
     | None => fault (no_method "removeListener")
     end
   else ret tt) ;;;
  call listener this args.

End Methods.

(** ** Function calls *)

(** [f.apply(this, args)], with a bound on the depth of nested calls. *)
Fixpoint apply (task_this : task_receiver) (depth : nat) (f : fid)
    (this : option context) (args : list value) : M (option context) :=
  match depth with
  | O => exhausted
  | S n =>
      record_call (mkCall f this args) ;;;
      h <- get_heap ;;
      match h !! f with
      | None => fault (TypeError "not a function")
      | Some (User body) => run_script task_this (apply task_this n) body this
      | Some (Shim type times listener fired) =>
          run_shim task_this (apply task_this n) f type times listener fired this args
      end
  end.

(** ** The emitter's interface, as client code calls it on the emitter *)

Module Api.
Section Api.
Variable task_this : task_receiver.
Variable depth : nat.

Definition on := addListener task_this (apply task_this depth) None.
Definition once := many task_this (apply task_this depth) None.
Definition after := after task_this (apply task_this depth) None.
Definition afterOnce := afterOnce task_this (apply task_this depth) None.
Definition removeListener := removeListener task_this (apply task_this depth) None.
Definition emit := emit task_this (apply task_this depth) None.
Definition emitOnce := emitOnce task_this (apply task_this depth) None.
End Api.
End Api.

(** Calls of function [f] in a trace. *)
Definition calls_of (f : fid) (tr : list call_record) : list call_record :=
  List.filter (fun r => Nat.eqb (cr_fn r) f) tr.

(** ** Synchronous dispatch

    What [emit] amounts to when the receiver of the tasks has no truthy
    [type]: the entries of the query are called one after the other with
    the same arguments, and the first fault ends the run. *)

Definition mark (task_this : task_receiver) (f : fid) (em : emission) : emission :=
  mkEmission (if r_ListenerSaysStop task_this
              then VPrim (PBool true) else shouldBeStopped em)
             (isAsync em) (subtasks em) (invoked em ++ [f]).

Fixpoint dispatch_in_order (task_this : task_receiver)
    (call : fid -> option context -> list value -> M (option context))
    (context : context) (args : list value)
    (entries : list (fid * option obj)) (em : emission) : M emission :=
  match entries with
  | [] => ret em
  | entry :: rest =>
      fun w =>
        match call (fst entry) (Some context) args w with
        | (w', Ok _) =>
            dispatch_in_order task_this call context args rest
                              (mark task_this (fst entry) em) w'
        | (w', Fault e) => if truthy e then (w', Fault e) else (w', Ok em)
        | (w', Exhausted) => (w', Exhausted)
        end
  end.

(** Every call of the run returns: the worlds before and after. *)
Inductive all_return
    (call : fid -> option context -> list value -> M (option context))
    (context : context) (args : list value)
  : list (fid * option obj) -> world -> world -> Prop :=
| all_return_nil w : all_return call context args [] w w
| all_return_cons entry rest w w1 w2 this' :
    call (fst entry) (Some context) args w = (w1, Ok this') ->
    all_return call context args rest w1 w2 ->
    all_return call context args (entry :: rest) w w2.

(** The name reads as a property of the object's own or as nothing: it
    is not read off [Object.prototype]. *)
Definition own_or_absent {A} (object : gmap string A) (name : string) : Prop :=
  object !! name = None -> Object_prototype name = None.

(** An entry of the query whose listener is a function. *)
Definition real (entry : fid * option obj) : option fid * option obj :=
  (Some (fst entry), snd entry).

Definition with_informer (w : world) (E : Informer) : world :=
  mkWorld (heap w) E (trace w).

(** The fault of an unheard [error] emission. *)
Definition uncaught (args : list value) : value :=
  match hd VUndefined args with
  | VError n m => VError n m
  | _ => TypeError uncaught_error_msg
  end.

(** The emission's variables after the listeners [fs] returned in turn. *)
Definition mark_all (task_this : task_receiver) (fs : list fid) (em : emission)
  : emission :=
  fold_left (fun em f => mark task_this f em) fs em.

(** A listener statement that touches nothing but its own context. *)
Definition local_action (a : action) : bool :=
  match a with
  | SetStop | Wait _ _ => true
  | _ => false
  end.

(** A client function whose body is made of such statements. *)
Definition quiet (h : list closure) (f : fid) : Prop :=
  exists body, h !! f = Some (User body) /\ forallb local_action body = true.

Definition with_trace (w : world) (tr : list call_record) : world :=
  mkWorld (heap w) (informer w) tr.


(** A client function that only sets the stop flag, if anything. *)
Definition stop_only (h : list closure) (f : fid) : Prop :=
  exists body,
    h !! f = Some (User body)
    /\ forallb (fun a => match a with SetStop => true | _ => false end) body = true.


(** The record of one call of a listener by [emit]. *)
Definition delivery (context : context) (args : list value) (f : fid)
  : call_record :=
  mkCall f (Some context) args.

(** The emitter after [on(T, l)] for a string type [T]. *)
Definition subscribed (E : Informer) (T : string) (l : fid) : Informer :=
  mkInformer (<[T := default [] (simpleListeners E !! T) ++ [l]]> (simpleListeners E))
             (filterListeners E)
             (if has_key (simpleListeners E) T then listenTypes E
              else listenTypes E ++ [T])
             (simpleSeen E) (filterSeen E).

(** The emitter with the simple listeners of [T] replaced. *)
Definition with_simple (E : Informer) (T : string) (ls : list fid) : Informer :=
  mkInformer (<[T := ls]> (simpleListeners E)) (filterListeners E)
             (listenTypes E) (simpleSeen E) (filterSeen E).

(** ** removeAllListeners *)

Section RemoveAll.

Variable task_this : task_receiver.
Variable call : fid -> option context -> list value -> M (option context).

(** [for (i = 0; i < list.length; i++) this.removeListener(type, list[i])]
    over the copy [list] of the simple listeners. *)
Fixpoint remove_each_simple (that : option context) (type : string)
    (list : list fid) : M unit :=
  match list with
  | [] => ret tt
  | l :: rest =>
      removeListener task_this call that (TStr type) (VFun l) ;;;
      remove_each_simple that type rest
  end.

(** [for (...) this.removeListener(list[i][1], list[i][0])] over the copy
    [list] of filter listener entries. *)
Fixpoint remove_each_filtered (that : option context)
    (list : list (fid * obj)) : M unit :=
  match list with
  | [] => ret tt
  | entry :: rest =>
      removeListener task_this call that (TFilter (snd entry)) (VFun (fst entry)) ;;;
      remove_each_filtered that rest
  end.

(** Under [if (listeners && listeners.length)], the listeners are copied
    to [list] and removed one by one.  The copy of an inherited function
    of non-zero [length] holds [undefined] only. *)
Definition removeAllListeners (that : option context) (type : descriptor)
    : M unit :=
  match type with
  | TStr s =>
      E <- get_informer ;;
      match read (simpleListeners E) s with
      | Own listeners => remove_each_simple that s listeners
      | Inherited (ProtoFunction (S _)) =>
          (* this.removeListener(type, list[0]) with list[0] undefined *)
          removeListener task_this call that (TStr s) VUndefined
      | Inherited _ | Absent => ret tt
      end ;;;
      E <- get_informer ;;
      match read (filterListeners E) s with
      | Own listeners => remove_each_filtered that listeners
      | Inherited (ProtoFunction (S _)) =>
          (* list[0][1] with list[0] undefined *)
          fault (of_undefined "1")
      | Inherited _ | Absent => ret tt
      end
  | TFilter f =>
      E <- get_informer ;;
      match read (filterListeners E) (filter_typeName f) with
      | Own listeners => remove_each_filtered that (matching f listeners)
      | Inherited (ProtoFunction (S _)) =>
          (* listeners[0][1] with listeners[0] undefined *)
          fault (of_undefined "1")
      | Inherited _ | Absent => ret tt
      end
  end.

End RemoveAll.

(** The registry as [addListener] builds it: a type name with a list of
    listeners is in [listenTypes], and a filter listener is stored under
    the type name of its filter. *)
Definition registry_wf (E : Informer) : Prop :=
  (forall k ls, simpleListeners E !! k = Some ls -> In k (listenTypes E))
  /\ (forall k ls, filterListeners E !! k = Some ls -> In k (listenTypes E))
  /\ (forall k ls e, filterListeners E !! k = Some ls -> In e ls ->
                    filter_typeName (snd e) = k).

(** A computation keeps a property of the world, however it ends. *)
Definition preserves {A} (P : world -> Prop) (m : M A) : Prop :=
  forall w, P w -> P (fst (m w)).

(** Whether a value is a function: [typeof v === 'function']. *)
Definition is_function (v : value) : bool :=
  match v with
  | VFun _ => true
  | _ => false
  end.

(** ** Array helpers (lib/array.js), on arrays of primitive values *)

Module BlastArray.

(** Strict equality [===] on primitives. *)
Definition strict_eq (x y : prim) : bool :=
  match x, y with
  | PUndefined, PUndefined => true
  | PNull, PNull => true
  | PBool a, PBool b => Bool.eqb a b
  | PNum a, PNum b => Z.eqb a b
  | PStr a, PStr b => String.eqb a b
  | _, _ => false
  end.

(** [CastFunction ? CastFunction(value) : value] *)
Definition cast_with (CastFunction : option (prim -> prim)) (v : prim) : prim :=
  match CastFunction with
  | Some f => f v
  | None => v
  end.

(** [if (!Array.isArray(arr)) arr = [arr]] *)
Definition as_array (arr : prim + list prim) : list prim :=
  match arr with
  | inl x => [x]
  | inr l => l
  end.

(** The inner loop of [shared] and [difference]: some [arr[i]] with
    [value == test] after casting. *)
Definition has_match (CastFunction : option (prim -> prim)) (arr : list prim)
    (value : prim) : bool :=
  existsb (fun test => loose_eq (cast_with CastFunction value)
                                (cast_with CastFunction test)) arr.

Definition shared (this : list prim) (arr : prim + list prim)
    (CastFunction : option (prim -> prim)) : list prim :=
  List.filter (has_match CastFunction (as_array arr)) this.

Definition difference (this : list prim) (arr : prim + list prim)
    (CastFunction : option (prim -> prim)) : list prim :=
  List.filter (fun value => negb (has_match CastFunction (as_array arr) value)) this.

(** [exclusive]: [this.shared(arr)] is taken without the cast function,
    and [arr.difference] exists on arrays only. *)
Definition exclusive (this : list prim) (arr : prim + list prim)
    (CastFunction : option (prim -> prim)) : outcome (list prim) :=
  let shared := shared this arr None in
  match arr with
  | inr l => Ok (difference this (inr shared) None ++ difference l (inr shared) None)
  | inl (PUndefined | PNull) =>
      Fault (TypeError "Cannot read property 'difference' of undefined")
  | inl _ => Fault (TypeError "arr.difference is not a function")
  end.

(** [this[this.length-1]] and [this[0]] *)
Definition last (this : list prim) : prim := List.last this PUndefined.
Definition first (this : list prim) : prim := hd PUndefined this.

(** The loop of [clean]: [for (i = 0; i < this.length; i++)], with
    [splice(i, 1); i--] on a hit.  [steps] bounds the iterations. *)
Fixpoint clean_loop (steps i : nat) (this : list prim) (deleteValue : prim)
    : list prim :=
  match steps with
  | O => this
  | S n =>
      match this !! i with
      | None => this
      | Some x =>
          if strict_eq x deleteValue
          then clean_loop n i (splice1 i this) deleteValue
          else clean_loop n (S i) this deleteValue
      end
  end.

(** Every iteration takes one element out or moves past one, so the
    length of the array bounds the iterations. *)
Definition clean (this : list prim) (deleteValue : prim) : list prim :=
  clean_loop (length this) 0 this deleteValue.

End BlastArray.

(** Client code that emits the same event [j] times in a row, stopping at
    the first fault. *)
Fixpoint emit_repeatedly (task_this : task_receiver) (depth : nat)
    (type : descriptor) (args : list value) (j : nat) : M unit :=
  match j with
  | O => ret tt
  | S j' =>
      Api.emit task_this depth type args ;;;
      emit_repeatedly task_this depth type args j'
  end.

(** The counting wrapper [g] around [L] sits among the listeners of the
    string type [T], which otherwise are client functions that leave the
    emitter alone; [fired] is its count so far. *)
Definition counting (T : string) (k : Z) (L g : fid) (pre post : list fid)
    (fired : Z) (w : world) : Prop :=
  heap w !! g = Some (Shim (TStr T) k L fired)
  /\ has_key (simpleListeners (informer w)) "removeListener" = false
  /\ simpleListeners (informer w) !! T = Some (pre ++ g :: post)
  /\ Forall (quiet (heap w)) pre
  /\ Forall (quiet (heap w)) post
  /\ quiet (heap w) L.

(** The listeners of the string type [T] are client functions that leave
    the emitter alone. *)
Definition settled (T : string) (ls : list fid) (w : world) : Prop :=
  simpleListeners (informer w) !! T = Some ls
  /\ Forall (quiet (heap w)) ls.

(** ** Facts about plain objects *)

Lemma own_or_absent_plain {A} (object : gmap string A) name :
  Object_prototype name = None -> own_or_absent object name.
Proof. intros H _. exact H. Qed.

Lemma own_or_absent_own {A} (object : gmap string A) name v :
  object !! name = Some v -> own_or_absent object name.
Proof. intros H H'. rewrite H in H'. discriminate. Qed.

Lemma read_own_or_absent {A} (object : gmap string A) name :
  own_or_absent object name ->
  read object name = match object !! name with
                     | Some v => Own v
                     | None => Absent
                     end.
Proof.
  intros H. unfold read, own_or_absent in *.
  destruct (object !! name); [reflexivity|].
  now rewrite H.
Qed.

Lemma read_own {A} (object : gmap string A) name v :
  object !! name = Some v -> read object name = Own v.
Proof. intros H. unfold read. now rewrite H. Qed.

Lemma read_plain {A} (object : gmap string A) name :
  Object_prototype name = None ->
  read object name = match object !! name with
                     | Some v => Own v
                     | None => Absent
                     end.
Proof. intros H. unfold read. now rewrite H. Qed.

(** ** Facts about dispatch *)

Section DispatchFacts.

Variable task_this : task_receiver.
Variable call : fid -> option context -> list value -> M (option context).
Hypothesis sync_receiver : r_type task_this = false.

Lemma bind_ret_same {A} (m : M A) w : (x <- m ;; ret x) w = m w.
Proof. unfold bind, ret. destruct (m w) as [w' [a|e|]]; reflexivity. Qed.

Lemma tasks_built that q args em entries acc :
  truthy (shouldBeStopped em) = false ->
  fold_left (eachListener task_this call that q args em) entries acc
  = acc ++ map (doListener task_this call that q args) entries.
Proof.
  intros Hs. revert acc.
  induction entries as [|e es IH]; intros acc; simpl.
  - now rewrite app_nil_r.
  - unfold eachListener at 2. rewrite Hs, IH, <- app_assoc. reflexivity.
Qed.

Lemma doListener_sync that q args entry em w :
  doListener task_this call that q args (real entry) em w
  = match call (fst entry)
               (Some (dispatch_context that (q_typeName q) (q_filter q))) args w with
    | (w', Ok _) =>
        (w', Ok (mark task_this (fst entry) em, Next VUndefined (fun e => e)))
    | (w', Fault e) => (w', Fault e)
    | (w', Exhausted) => (w', Exhausted)
    end.
Proof.
  unfold doListener, real, bind. cbn [fst].
  destruct (call (fst entry) _ args w) as [w1 [this'|err|]]; try reflexivity.
  rewrite sync_receiver. reflexivity.
Qed.

Lemma series_sync that q args entries em w :
  truthy (isAsync em) = false ->
  series (map (doListener task_this call that q args) (map real entries))
         (seriesDone call args) em w
  = dispatch_in_order task_this call
      (dispatch_context that (q_typeName q) (q_filter q)) args entries em w.
Proof.
  revert em w.
  induction entries as [|e es IH]; intros em w Ha.
  - simpl. unfold seriesDone. rewrite Ha. reflexivity.
  - cbn [map series dispatch_in_order].
    unfold bind at 1, attempt. rewrite doListener_sync.
    destruct (call (fst e) _ args w) as [w1 [this'|err|]].
    + cbn [truthy truthy_prim]. rewrite bind_ret_same.
      apply IH. exact Ha.
    + unfold seriesDone. rewrite Ha. simpl.
      destruct (truthy err); reflexivity.
    + reflexivity.
Qed.

(** The calls return up to one that throws: the run ends there, whatever
    entries follow. *)
Lemma series_fault that q args pre f post e : forall em w w1 w2,
  truthy (isAsync em) = false ->
  all_return call (dispatch_context that (q_typeName q) (q_filter q)) args pre w w1 ->
  call (fst f) (Some (dispatch_context that (q_typeName q) (q_filter q))) args w1
  = (w2, Fault e) ->
  truthy e = true ->
  series (map (doListener task_this call that q args) (map real pre ++ real f :: post))
         (seriesDone call args) em w
  = (w2, Fault e).
Proof.
  induction pre as [|x pre IH]; intros em w w1 w2 Ha Hall Hcall He.
  - inversion Hall; subst.
    cbn [map app series]. unfold bind at 1, attempt. rewrite doListener_sync, Hcall.
    unfold seriesDone. rewrite Ha. cbn [negb]. rewrite He. reflexivity.
  - inversion Hall as [|x' pre' w0 w3 w4 this' Hx Hrest]; subst.
    cbn [map app series]. unfold bind at 1, attempt. rewrite doListener_sync, Hx.
    cbn [truthy truthy_prim]. rewrite bind_ret_same.
    eapply IH; eauto.
Qed.

(** [emit] in the synchronous regime, when the query returns and every
    entry holds a function. *)
Lemma emit_sync that type args w q es :
  snd (queryListeners (informer w) type (VPrim (PBool true))) = Ok q ->
  q_entries q = map real es ->
  emit task_this call that type args w
  = let w1 := with_informer w
                (fst (queryListeners (informer w) type (VPrim (PBool true)))) in
    match es with
    | [] =>
        if is_error_type type then
          (w1, Fault match hd VUndefined args with
                     | VError n m => VError n m
                     | _ => TypeError uncaught_error_msg
                     end)
        else (w1, Ok fresh_emission)
    | entries =>
        dispatch_in_order task_this call
          (dispatch_context that (q_typeName q) (q_filter q)) args entries
          fresh_emission w1
    end.
Proof.
  intros Hq He. unfold emit, bind at 1, on_informer. rewrite Hq.
  fold (with_informer w (fst (queryListeners (informer w) type (VPrim (PBool true))))).
  unfold q_length. cbn zeta. rewrite He.
  destruct es as [|e es].
  - cbn [map length Nat.add Nat.ltb Nat.leb andb].
    destruct (is_error_type type); cbn [andb].
    + destruct (hd VUndefined args); reflexivity.
    + reflexivity.
  - replace (Nat.ltb (2 + length (map real (e :: es))) 3) with false by reflexivity.
    rewrite andb_false_r.
    rewrite tasks_built by reflexivity. cbn [app].
    apply series_sync. reflexivity.
Qed.

Lemma invoked_mark_all fs : forall em,
  invoked (mark_all task_this fs em) = invoked em ++ fs.
Proof.
  induction fs as [|f fs IH]; intros em.
  - simpl. now rewrite app_nil_r.
  - change (mark_all task_this (f :: fs) em)
      with (mark_all task_this fs (mark task_this f em)).
    rewrite IH. simpl. now rewrite <- app_assoc.
Qed.

Lemma isAsync_mark_all fs : forall em,
  isAsync (mark_all task_this fs em) = isAsync em.
Proof.
  induction fs as [|f fs IH]; intros em; [reflexivity|].
  change (mark_all task_this (f :: fs) em)
    with (mark_all task_this fs (mark task_this f em)).
  now rewrite IH.
Qed.

(** A run whose first calls all return goes on with the rest. *)
Lemma dispatch_all_return context args pre rest : forall em w w1,
  all_return call context args pre w w1 ->
  dispatch_in_order task_this call context args (pre ++ rest) em w
  = dispatch_in_order task_this call context args rest
      (mark_all task_this (map fst pre) em) w1.
Proof.
  induction pre as [|e pre IH]; intros em w w1 Hall.
  - inversion Hall; subst. reflexivity.
  - inversion Hall as [|e' pre' w0 w2 w3 this' Hcall Hrest]; subst.
    cbn [app dispatch_in_order map]. rewrite Hcall. now apply IH.
Qed.

(** An emission whose listeners all return. *)
Lemma emit_all_return that type args w w' q es :
  snd (queryListeners (informer w) type (VPrim (PBool true))) = Ok q ->
  q_entries q = map real es ->
  es <> [] ->
  all_return call (dispatch_context that (q_typeName q) (q_filter q)) args es
             (with_informer w
                (fst (queryListeners (informer w) type (VPrim (PBool true))))) w' ->
  emit task_this call that type args w
  = (w', Ok (mark_all task_this (map fst es) fresh_emission)).
Proof.
  intros Hq He Hne Hall. rewrite (emit_sync _ _ _ _ _ _ Hq He). cbn zeta.
  destruct es as [|e es]; [contradiction|].
  rewrite <- (app_nil_r (e :: es)) at 1.
  erewrite dispatch_all_return by exact Hall.
  reflexivity.
Qed.

End DispatchFacts.

(** ** Emissions that find no listener, or no function *)

Lemma emit_no_listener task_this call that type args w q :
  snd (queryListeners (informer w) type (VPrim (PBool true))) = Ok q ->
  q_entries q = [] ->
  emit task_this call that type args w
  = (with_informer w (fst (queryListeners (informer w) type (VPrim (PBool true)))),
     if is_error_type type then Fault (uncaught args) else Ok fresh_emission).
Proof.
  intros Hq He. unfold emit, bind at 1, on_informer. rewrite Hq.
  unfold q_length. rewrite He.
  cbn [length Nat.add Nat.ltb Nat.leb]. unfold with_informer.
  destruct (is_error_type type); cbn [andb]; [|reflexivity].
  unfold uncaught. destruct (hd VUndefined args); reflexivity.
Qed.

(** The query itself throws. *)
Lemma emit_query_fault task_this call that type args w e :
  snd (queryListeners (informer w) type (VPrim (PBool true))) = Fault e ->
  emit task_this call that type args w
  = (with_informer w (fst (queryListeners (informer w) type (VPrim (PBool true)))),
     Fault e).
Proof.
  intros Hq. unfold emit, bind at 1, on_informer. rewrite Hq. reflexivity.
Qed.

(** The first entry of the query holds [undefined]: the first task throws
    before anything is called, and [emit] throws that TypeError, whatever
    the receiver of the tasks. *)
Lemma emit_undefined_entry task_this call that type args w q o rest :
  snd (queryListeners (informer w) type (VPrim (PBool true))) = Ok q ->
  q_entries q = (None, o) :: rest ->
  emit task_this call that type args w
  = (with_informer w (fst (queryListeners (informer w) type (VPrim (PBool true)))),
     Fault (of_undefined "call")).
Proof.
  intros Hq He. unfold emit, bind at 1, on_informer. rewrite Hq.
  unfold q_length. rewrite He.
  replace (Nat.ltb (2 + length ((@None fid, o) :: rest)) 3) with false by reflexivity.
  rewrite andb_false_r. cbn [fold_left].
  unfold eachListener at 2. cbn [fresh_emission shouldBeStopped truthy truthy_prim app].
  set (tasks := fold_left _ rest _).
  assert (Htasks : exists more,
             tasks = doListener task_this call that q args (None, o) :: more).
  { subst tasks. generalize (doListener task_this call that q args (None, o)).
    intros t. 
    assert (Hgen : forall l acc, exists more,
               fold_left (eachListener task_this call that q args
                            (mkEmission VUndefined VUndefined [] [])) l (t :: acc)
               = t :: more).
    { induction l as [|x l IH]; intros acc; [eexists; reflexivity|].
      cbn [fold_left]. unfold eachListener at 2.
      cbn [shouldBeStopped truthy truthy_prim app]. apply IH. }
    apply (Hgen rest []). }
  destruct Htasks as [more ->].
  cbn [series]. unfold bind at 1, attempt, doListener. cbn [fst fault].
  unfold seriesDone. reflexivity.
Qed.

(** ** Matching and snapshots *)

Lemma key_subset_match_refl (f : obj) : key_subset_match f f = true.
Proof.
  unfold key_subset_match. apply forallb_forall. intros k _.
  destruct (prop f k) as [| |b|n|s]; simpl.
  - reflexivity.
  - reflexivity.
  - apply Z.eqb_refl.
  - apply Z.eqb_refl.
  - apply String.eqb_refl.
Qed.

Lemma not_empty_eqb (T : string) : T <> "" -> String.eqb T "" = false.
Proof.
  intros H. destruct (String.eqb T "") eqn:Heq; [|reflexivity].
  apply String.eqb_eq in Heq. contradiction.
Qed.



Lemma simple_entries_own E T ls :
  T <> "" ->
  simpleListeners E !! T = Some ls ->
  simple_entries E T = map real (map (fun l => (l, None)) ls).
Proof.
  intros Hne HT. unfold simple_entries. cbn [truthy_prim].
  rewrite (not_empty_eqb _ Hne). cbn [negb]. rewrite (read_own _ _ _ HT).
  rewrite map_map. reflexivity.
Qed.


(** ** Listeners that leave the emitter alone *)

Section QuietListeners.

Variable task_this : task_receiver.

Lemma run_script_local call body : forall c w,
  forallb local_action body = true ->
  c_wait c = true ->
  exists c', run_script task_this call body (Some c) w = (w, Ok (Some c')).
Proof.
  induction body as [|a body IH]; intros c w Hb Hw.
  - eexists. reflexivity.
  - cbn [forallb] in Hb. apply andb_prop in Hb as [Ha Hb].
    destruct a; try discriminate Ha; cbn [run_script run_action]; unfold bind, ret.
    + apply IH; [exact Hb | exact Hw].
    + rewrite Hw. apply IH; [exact Hb|].
      destruct finish; exact Hw.
Qed.

Lemma apply_quiet n f c args w :
  quiet (heap w) f ->
  c_wait c = true ->
  exists c',
    apply task_this (S n) f (Some c) args w
    = (with_trace w (trace w ++ [delivery c args f]), Ok (Some c')).
Proof.
  intros (body & Hf & Hb) Hw.
  cbn [apply]. unfold bind at 1, record_call. unfold bind at 1, get_heap.
  cbn [heap]. rewrite Hf.
  destruct (run_script_local (apply task_this n) body c
              (mkWorld (heap w) (informer w) (trace w ++ [mkCall f (Some c) args]))
              Hb Hw) as [c' Hc'].
  exists c'. exact Hc'.
Qed.

Lemma all_return_quiet n context args entries : forall w,
  Forall (quiet (heap w)) (map fst entries) ->
  c_wait context = true ->
  all_return (apply task_this (S n)) context args entries w
    (with_trace w (trace w ++ map (delivery context args) (map fst entries))).
Proof.
  induction entries as [|e es IH]; intros w Hq Hw.
  - cbn [map]. rewrite app_nil_r. destruct w. constructor.
  - cbn [map] in *. apply Forall_cons in Hq as [Hq1 Hq2].
    destruct (apply_quiet n (fst e) context args w Hq1 Hw) as [c' Hc'].
    econstructor; [exact Hc'|].
    specialize (IH (with_trace w (trace w ++ [delivery context args (fst e)])) Hq2 Hw).
    cbn [with_trace heap informer trace] in IH.
    rewrite <- app_assoc in IH. exact IH.
Qed.

End QuietListeners.

(** The query for a string type with a list of its own. *)
Lemma query_simple (E : Informer) (T : string) m ls :
  T <> "" ->
  simpleListeners E !! T = Some ls ->
  snd (queryListeners E (TStr T) m)
  = Ok (mkQuery T None (map real (map (fun l => (l, None)) ls))).
Proof.
  intros Hne Hls. unfold queryListeners. cbn [snd typeName_of filter_of].
  now rewrite (simple_entries_own _ _ _ Hne Hls).
Qed.

Lemma map_fst_simple (ls : list fid) :
  map fst (map (fun l : fid => (l, @None obj)) ls) = ls.
Proof. rewrite map_map. apply map_id. Qed.

(** A string-typed emission to listeners that leave the emitter alone:
    each is called once, in order, and only the seen mark and the trace
    change. *)
Lemma emit_quiet_simple task_this n (T : string) (args : list value)
    (ls : list fid) (w : world) :
  r_type task_this = false ->
  T <> "" ->
  simpleListeners (informer w) !! T = Some ls ->
  ls <> [] ->
  Forall (quiet (heap w)) ls ->
  emit task_this (apply task_this (S n)) None (TStr T) args w
  = (mkWorld (heap w)
       (fst (queryListeners (informer w) (TStr T) (VPrim (PBool true))))
       (trace w ++ map (delivery (dispatch_context None T None) args) ls),
     Ok (mark_all task_this ls fresh_emission)).
Proof.
  intros Hsync HT Hls Hne Hq.
  pose proof (query_simple (informer w) T (VPrim (PBool true)) ls HT Hls) as Hquery.
  erewrite emit_all_return; [ | exact Hsync | exact Hquery | reflexivity | | ].
  - rewrite map_fst_simple. reflexivity.
  - destruct ls; [contradiction | discriminate].
  - cbn [q_typeName q_filter].
    pose proof (all_return_quiet task_this n (dispatch_context None T None) args
                  (map (fun l : fid => (l, @None obj)) ls)
                  (with_informer w (fst (queryListeners (informer w) (TStr T)
                                                        (VPrim (PBool true)))))) as H.
    rewrite map_fst_simple in H. apply H; [exact Hq | reflexivity].
Qed.

(** ** Replay subscription *)

Section Replay.

Variable task_this : task_receiver.
Variable call : fid -> option context -> list value -> M (option context).

Lemma bind_ok {A B} (m : M A) (k : A -> M B) w w' a :
  m w = (w', Ok a) -> bind m k w = k a w'.
Proof. intros H. unfold bind. now rewrite H. Qed.

Lemma alloc_spec c w :
  alloc c w = (mkWorld (heap w ++ [c]) (informer w) (trace w), Ok (length (heap w))).
Proof. reflexivity. Qed.

Lemma addListener_simple that T l w :
  own_or_absent (simpleListeners (informer w)) T ->
  has_key (simpleListeners (informer w)) "newListener" = false ->
  has_key (filterListeners (informer w)) "newListener" = false ->
  addListener task_this call that (TStr T) (VFun l) w
  = (with_informer w (subscribed (informer w) T l), Ok tt).
Proof.
  intros HT H1 H2. unfold addListener.
  unfold bind at 1, get_informer. unfold bind at 1, get_heap.
  rewrite H1, H2. cbn [orb]. unfold bind at 1, ret.
  unfold bind at 1. cbn [typeName_of informer]. rewrite (read_own_or_absent _ _ HT).
  unfold subscribed, has_key, set_informer.
  destruct (simpleListeners (informer w) !! T); reflexivity.
Qed.




End Replay.

Lemma apply_S task_this n f this args w :
  apply task_this (S n) f this args w
  = let w1 := with_trace w (trace w ++ [mkCall f this args]) in
    match heap w !! f with
    | None => (w1, Fault (TypeError "not a function"))
    | Some (User body) => run_script task_this (apply task_this n) body this w1
    | Some (Shim type times listener fired) =>
        run_shim task_this (apply task_this n) f type times listener fired this args w1
    end.
Proof.
  change (apply task_this (S n) f this args w)
    with ((record_call (mkCall f this args) ;;;
           h <- get_heap ;;
           match h !! f with
           | None => fault (TypeError "not a function")
           | Some (User body) => run_script task_this (apply task_this n) body this
           | Some (Shim type times listener fired) =>
               run_shim task_this (apply task_this n) f type times listener fired
                        this args
           end) w).
  unfold bind at 1, record_call. unfold bind at 1, get_heap. cbn [heap].
  unfold with_trace. cbn zeta. destruct (heap w !! f) as [[|]|]; reflexivity.
Qed.

Lemma run_script_stop_only task_this call body : forall c w,
  forallb (fun a => match a with SetStop => true | _ => false end) body = true ->
  exists c', run_script task_this call body (Some c) w = (w, Ok (Some c')).
Proof.
  induction body as [|a body IH]; intros c w Hb.
  - eexists. reflexivity.
  - cbn [forallb] in Hb. apply andb_prop in Hb as [Ha Hb].
    destruct a; try discriminate Ha. cbn [run_script run_action]. unfold bind, ret.
    apply IH. exact Hb.
Qed.

Lemma apply_stop_only task_this n f c args w :
  stop_only (heap w) f ->
  exists c',
    apply task_this (S n) f (Some c) args w
    = (with_trace w (trace w ++ [mkCall f (Some c) args]), Ok (Some c')).
Proof.
  intros (body & Hf & Hb).
  cbn [apply]. unfold bind at 1, record_call. unfold bind at 1, get_heap.
  cbn [heap]. rewrite Hf.
  apply run_script_stop_only. exact Hb.
Qed.

Lemma calls_of_app f tr1 tr2 :
  calls_of f (tr1 ++ tr2) = calls_of f tr1 ++ calls_of f tr2.
Proof. unfold calls_of. apply List.filter_app. Qed.

Lemma calls_of_deliveries f context args ls :
  ~ In f ls -> calls_of f (map (delivery context args) ls) = [].
Proof.
  induction ls as [|l ls IH]; intros Hin; [reflexivity|].
  cbn [map calls_of List.filter delivery cr_fn].
  destruct (Nat.eqb l f) eqn:Heq.
  - apply Nat.eqb_eq in Heq. subst. exfalso. apply Hin. now left.
  - apply IH. intros H. apply Hin. now right.
Qed.

Lemma quiet_app h c f : quiet h f -> quiet (h ++ [c]) f.
Proof.
  intros (body & Hf & Hb). exists body. split; [|exact Hb].
  unfold fid in *. now apply lookup_app_l_Some.
Qed.




(** ** An emission without a type name

    A filter without a string [type] is looked up under every name in
    [listenTypes], and [addListener] pushes a name there once for the
    simple and once for the filter listeners: after [on('5', A)] and
    [on({type: '5'}, B)], one [emit({type: 5})] calls [B] twice. *)

Lemma untyped_emission_can_deliver_twice :
  let w0 := new_world [User []; User []] in
  let w1 := fst (Api.on plain_receiver 3 (TStr "5") (VFun 0%nat) w0) in
  let w2 := fst (Api.on plain_receiver 3 (TFilter [("type", PStr "5")]) (VFun 1%nat) w1) in
  let r := Api.emit plain_receiver 3 (TFilter [("type", PNum 5)]) [] w2 in
  listenTypes (informer w2) = ["5"; "5"]
  /\ filterListeners (informer w2) !! "5" = Some [(1%nat, [("type", PStr "5")])]
  /\ map cr_fn (trace (fst r)) = [1%nat; 1%nat].
Proof. vm_compute. repeat split. Qed.

(** ** The documented behaviour, claim by claim *)

(** C1 at its failing input.  Listener 0 sets [this.ListenerSaysStop = true]
    on its dispatch context, listener 1 is registered after it for the same
    type.  One [emit('t', 7)] calls both, listener 1 after listener 0, and
    the emission does not even record the stop.  Whatever receiver the
    runner gives its tasks, the calls made are those of an emission whose
    first listener does not set the flag. *)
Theorem stop_does_not_prevent_later_listener :
  let run := fun (r : task_receiver) (body0 : list action) =>
    let w0 := new_world [User body0; User []] in
    let w1 := fst (Api.on r 3 (TStr "t") (VFun 0%nat) w0) in
    let w2 := fst (Api.on r 3 (TStr "t") (VFun 1%nat) w1) in
    Api.emit r 3 (TStr "t") [VPrim (PNum 7)] w2 in
  (map cr_fn (trace (fst (run plain_receiver [SetStop]))) = [0%nat; 1%nat]
   /\ exists em, snd (run plain_receiver [SetStop]) = Ok em
        /\ invoked em = [0%nat; 1%nat]
        /\ shouldBeStopped em = VUndefined)
  /\ forall r,
       map cr_fn (trace (fst (run r [SetStop])))
       = map cr_fn (trace (fst (run r []))).
Proof.
  split.
  - vm_compute. split; [reflexivity | eexists; repeat split].
  - intros [[] [] [] []]; vm_compute; reflexivity.
Qed.

(** C2 at its failing input.  Listener 0 calls [this.wait('series')] and
    the completion function it returns at once; function 1 is passed as
    the trailing callback of [emit('t', cb)].  The emission is not
    classified asynchronous, and the callback is never called: the only
    call made is the one of the listener.  Whatever receiver the runner
    gives its tasks, the callback is not called once with
    [(undefined, false)]. *)
Theorem wait_does_not_make_emit_asynchronous :
  let run := fun (r : task_receiver) =>
    let w0 := new_world [User [Wait (PStr "series") (Some VUndefined)]; User []] in
    let w1 := fst (Api.on r 3 (TStr "t") (VFun 0%nat) w0) in
    Api.emit r 3 (TStr "t") [VFun 1%nat] w1 in
  (map cr_fn (trace (fst (run plain_receiver))) = [0%nat]
   /\ calls_of 1%nat (trace (fst (run plain_receiver))) = []
   /\ exists em, snd (run plain_receiver) = Ok em /\ isAsync em = VUndefined)
  /\ forall r,
       calls_of 1%nat (trace (fst (run r)))
       <> [mkCall 1%nat None [VUndefined; VPrim (PBool false)]].
Proof.
  split.
  - vm_compute. repeat split. eexists; repeat split.
  - intros [[] [] [] []]; vm_compute; discriminate.
Qed.

(** C3, as stated, fails: in an emission with no asynchronous listener
    whose last argument is a function, the listener's error is thrown out
    of [emit] all the same and the function is not called.  Listener 0
    throws an Error, function 1 is the trailing argument. *)
Lemma sync_error_is_thrown_despite_callback :
  let boom := VError "Error" "boom" in
  let w0 := new_world [User [Raise boom]; User []] in
  let w1 := fst (Api.on plain_receiver 3 (TStr "t") (VFun 0%nat) w0) in
  let r := Api.emit plain_receiver 3 (TStr "t") [VFun 1%nat] w1 in
  snd r = Fault boom
  /\ calls_of 1%nat (trace (fst r)) = []
  /\ map cr_fn (trace (fst r)) = [0%nat].
Proof. vm_compute. repeat split. Qed.

(** C3, amended.  A listener-reported error of an emission in which no
    listener declared itself asynchronous is one a listener throws.  Such
    an error, when truthy, is raised out of [emit] whatever the last
    argument is, and nothing is called as a completion callback:
    [seriesDone] throws the error it is given (and returns when there is
    none), and an emit whose listeners return up to one that throws [e]
    ends with that fault in the world that listener left, whatever
    entries follow it. *)
Theorem sync_emit_raises_listener_error
    task_this call that (type : descriptor) (args : list value) (w : world)
    (q : query) :
  r_type task_this = false ->
  snd (queryListeners (informer w) type (VPrim (PBool true))) = Ok q ->
  let E' := fst (queryListeners (informer w) type (VPrim (PBool true))) in
  let context := dispatch_context that (q_typeName q) (q_filter q) in
  (forall em err w0,
      truthy (isAsync em) = false ->
      seriesDone call args em err w0
      = (w0, if truthy err then Fault err else Ok em))
  /\ (forall pre f post w1 w2 e,
        q_entries q = map real pre ++ real f :: post ->
        all_return call context args pre (with_informer w E') w1 ->
        call (fst f) (Some context) args w1 = (w2, Fault e) ->
        truthy e = true ->
        emit task_this call that type args w = (w2, Fault e)).
Proof.
  intros Hsync Hquery E' context. split.
  - intros em err w0 Ha. unfold seriesDone. rewrite Ha. simpl.
    destruct (truthy err); reflexivity.
  - intros pre f post w1 w2 e Hq Hall Hcall He.
    unfold emit, bind at 1, on_informer. rewrite Hquery.
    unfold q_length. rewrite Hq.
    replace (Nat.ltb (2 + length (map real pre ++ real f :: post)) 3) with false.
    2:{ symmetry. apply Nat.ltb_ge. rewrite length_app. cbn [length]. lia. }
    rewrite andb_false_r.
    rewrite tasks_built by reflexivity. cbn [app].
    eapply series_fault; eauto.
Qed.

Lemma sync_emit_raises_listener_error_witness :
  let boom := VError "Error" "boom" in
  let w1 := fst (Api.on plain_receiver 3 (TStr "t") (VFun 0%nat)
                   (new_world [User [Raise boom]; User []])) in
  exists w2,
    emit plain_receiver (apply plain_receiver 3) None (TStr "t") [VFun 1%nat] w1
    = (w2, Fault boom)
    /\ calls_of 1%nat (trace w2) = [].
Proof.
  intros boom w1.
  pose proof (sync_emit_raises_listener_error plain_receiver
                (apply plain_receiver 3) None (TStr "t") [VFun 1%nat] w1
                (mkQuery "t" None [(Some 0%nat, None)])
                eq_refl) as H.
  destruct H as [_ H]; [vm_compute; reflexivity|].
  eexists. split.
  - eapply H with (pre := []) (f := (0%nat, None)) (post := []).
    + reflexivity.
    + constructor.
    + vm_compute. reflexivity.
    + reflexivity.
  - vm_compute. reflexivity.
Defined.

(** C4 at its failing input.  With one listener subscribed to the filter
    {type: 't', a: 1} and nothing ever emitted ([filterSeen] is empty),
    [hasBeenSeen] of that filter is already true; and after emitting the
    filter {type: 'u', a: 1} on a new emitter ([filterSeen] holds it),
    [hasBeenSeen] of the same filter is false.  On every emitter the
    answer for a filter is the same when the two seen records are
    emptied. *)
Theorem hasBeenSeen_filter_consults_listeners :
  let f := [("type", PStr "t"); ("a", PNum 1)] in
  let u := [("type", PStr "u"); ("a", PNum 1)] in
  let w1 := fst (Api.on plain_receiver 3 (TFilter f) (VFun 0%nat) (new_world [User []])) in
  let w2 := fst (Api.emit plain_receiver 3 (TFilter u) [] (new_world [])) in
  (filterSeen (informer w1) = [] /\ trace w1 = []
   /\ hasBeenSeen (informer w1) (TFilter f) = Ok true)
  /\ (filterSeen (informer w2) = [u]
      /\ hasBeenSeen (informer w2) (TFilter u) = Ok false)
  /\ forall (E : Informer) (F : obj),
       hasBeenSeen E (TFilter F)
       = hasBeenSeen (mkInformer (simpleListeners E) (filterListeners E)
                                 (listenTypes E) ∅ []) (TFilter F).
Proof.
  split; [|split].
  - vm_compute. repeat split.
  - vm_compute. repeat split.
  - reflexivity.
Qed.

(** C5.  An emit whose type is exactly the string 'error' and that finds
    no listener beyond the two metadata slots raises a fault: the first
    event argument itself when it is an Error instance, a TypeError with
    the fixed "uncaught" message for any other value.  This holds for
    every emitter, receiver of the call and argument list. *)
Theorem emit_error_without_listener_raises
    task_this call that (args : list value) (w : world) (listeners : query) :
  snd (queryListeners (informer w) (TStr "error") (VPrim (PBool true)))
  = Ok listeners ->
  Nat.ltb (q_length listeners) 3 = true ->
  snd (emit task_this call that (TStr "error") args w)
  = Fault match hd VUndefined args with
          | VError name msg => VError name msg
          | _ => VError "TypeError" uncaught_error_msg
          end.
Proof.
  intros Hq Hlen.
  erewrite emit_no_listener; [reflexivity | exact Hq |].
  unfold q_length in Hlen.
  destruct (q_entries _); [reflexivity | discriminate Hlen].
Qed.

Lemma emit_error_without_listener_raises_witness :
  snd (emit plain_receiver (apply plain_receiver 3) None (TStr "error")
            [VError "RangeError" "out of range"; VPrim (PNum 2)] (new_world []))
  = Fault (VError "RangeError" "out of range").
Proof.
  apply (emit_error_without_listener_raises plain_receiver
           (apply plain_receiver 3) None
           [VError "RangeError" "out of range"; VPrim (PNum 2)] (new_world [])
           (mkQuery "error" None [])).
  - vm_compute. reflexivity.
  - reflexivity.
Defined.

(** C6, as stated, fails for the type name 'error' and for the names
    under which every object inherits a function of non-zero [length]: on
    a new emitter [emit('error')] throws; so does [emit('constructor')],
    whose query holds the [undefined] read off the inherited function,
    whatever the receiver of the tasks; and for the filter
    {type: 'constructor'} the query itself throws. *)
Lemma emit_without_listener_can_throw :
  (snd (Api.emit plain_receiver 3 (TStr "error") [] (new_world []))
   = Fault (VError "TypeError" uncaught_error_msg)
   /\ snd (listeners new_Informer (TStr "error")) = Ok [])
  /\ (snd (listeners new_Informer (TStr "constructor")) = Ok [(None, None)]
      /\ forall r,
           Api.emit r 3 (TStr "constructor") [] (new_world [])
           = (with_informer (new_world [])
                (fst (queryListeners new_Informer (TStr "constructor")
                                     (VPrim (PBool true)))),
              Fault (of_undefined "call")))
  /\ Api.emit plain_receiver 3 (TFilter [("type", PStr "constructor")]) []
               (new_world [])
     = (with_informer (new_world [])
          (fst (queryListeners new_Informer (TFilter [("type", PStr "constructor")])
                               (VPrim (PBool true)))),
        Fault (of_undefined "1")).
Proof.
  split; [split; vm_compute; reflexivity|].
  split; [split; [vm_compute; reflexivity|]|vm_compute; reflexivity].
  intros [[] [] [] []]; vm_compute; reflexivity.
Qed.

(** C6, amended.  For every emitter and every type name T with no
    listeners registered, other than 'error' and the names under which
    objects inherit a function of non-zero [length], [emit(T, ...)]
    returns without a fault and without calling any function, a trailing
    callback included: the heap and the trace of calls are unchanged, and
    so is the registry apart from the seen marks of [queryListeners].
    The same holds of every type descriptor other than 'error' for which
    the query returns without an entry. *)
Theorem emit_without_listener_returns
    task_this call that (type : descriptor) (args : list value) (w : world) :
  type <> TStr "error" ->
  (exists T,
      type = TStr T
      /\ default [] (simpleListeners (informer w) !! T) = []
      /\ forall n, Object_prototype T <> Some (ProtoFunction (S n)))
  \/ (exists q,
        snd (queryListeners (informer w) type (VPrim (PBool true))) = Ok q
        /\ q_entries q = []) ->
  exists w',
    emit task_this call that type args w = (w', Ok fresh_emission)
    /\ trace w' = trace w
    /\ heap w' = heap w
    /\ informer w' = fst (queryListeners (informer w) type (VPrim (PBool true))).
Proof.
  intros Hne Hq.
  assert (Hq' : exists q,
             snd (queryListeners (informer w) type (VPrim (PBool true))) = Ok q
             /\ q_entries q = []).
  { destruct Hq as [(T & -> & Hnone & Hp)|Hq]; [|exact Hq].
    eexists. split; [reflexivity|]. cbn [q_entries typeName_of].
    unfold simple_entries, read. destruct (truthy_prim (PStr T)); [|reflexivity].
    destruct (simpleListeners (informer w) !! T) as [ls|].
    - change (default [] (Some ls)) with ls in Hnone. now subst ls.
    - destruct (Object_prototype T) as [[[|n]|]|] eqn:Hproto; try reflexivity.
      exfalso. now apply (Hp n). }
  destruct Hq' as (q & Hq1 & Hq2).
  eexists. erewrite emit_no_listener by eassumption.
  assert (is_error_type type = false) as ->.
  { destruct type as [s|f]; [|reflexivity]. simpl.
    destruct (String.eqb s "error") eqn:E; [|reflexivity].
    apply String.eqb_eq in E. subst. contradiction. }
  repeat split.
Qed.

Lemma emit_without_listener_returns_witness :
  exists w',
    emit plain_receiver (apply plain_receiver 3) None (TStr "ready")
         [VFun 0%nat] (new_world [User [Raise VUndefined]])
    = (w', Ok fresh_emission)
    /\ trace w' = []
    /\ heap w' = [User [Raise VUndefined]]
    /\ informer w' = fst (queryListeners new_Informer (TStr "ready") (VPrim (PBool true))).
Proof.
  apply (emit_without_listener_returns plain_receiver (apply plain_receiver 3) None
           (TStr "ready") [VFun 0%nat] (new_world [User [Raise VUndefined]])).
  - discriminate.
  - left. exists "ready". split; [reflexivity|]. split; [vm_compute; reflexivity|].
    intros n. vm_compute. discriminate.
Defined.

(** C7.  On every emitter whose simple listeners for a non-empty type
    name T (not seen yet) are client functions that leave the emitter
    alone, [emitOnce(T, data)] calls each listener once with [data], a
    second [emitOnce(T, data)] calls nothing and changes nothing, and a
    direct [emit(T, data)] afterwards calls each listener once again. *)
Theorem emitOnce_round_trip
    task_this n (T : string) (data : value) (ls : list fid) (w : world) :
  r_type task_this = false ->
  T <> "" ->
  hasBeenSeen (informer w) (TStr T) = Ok false ->
  simpleListeners (informer w) !! T = Some ls ->
  ls <> [] ->
  Forall (quiet (heap w)) ls ->
  let calls := map (delivery (dispatch_context None T None) [data]) ls in
  exists w1 w2 em,
    Api.emitOnce task_this (S n) (TStr T) data w = (w1, Ok tt)
    /\ trace w1 = trace w ++ calls
    /\ Api.emitOnce task_this (S n) (TStr T) data w1 = (w1, Ok tt)
    /\ Api.emit task_this (S n) (TStr T) [data] w1 = (w2, Ok em)
    /\ invoked em = ls
    /\ trace w2 = trace w1 ++ calls.
Proof.
  intros Hsync HT Hseen Hls Hne Hq calls.
  set (E1 := fst (queryListeners (informer w) (TStr T) (VPrim (PBool true)))).
  set (w1 := mkWorld (heap w) E1 (trace w ++ calls)).
  assert (Hseen1 : hasBeenSeen (informer w1) (TStr T) = Ok true).
  { cbn. unfold read. now rewrite lookup_insert_eq. }
  assert (Hemit1 : emit task_this (apply task_this (S n)) None (TStr T) [data] w1
                   = (mkWorld (heap w1)
                        (fst (queryListeners (informer w1) (TStr T) (VPrim (PBool true))))
                        (trace w1 ++ calls),
                      Ok (mark_all task_this ls fresh_emission))).
  { apply emit_quiet_simple; try assumption. }
  eexists w1, _, _.
  split; [|split; [|split; [|split; [exact Hemit1|split]]]].
  - unfold Api.emitOnce, emitOnce, bind at 1, get_informer. rewrite Hseen.
    unfold bind at 1, lift. cbn [negb]. unfold bind.
    rewrite (emit_quiet_simple task_this n T [data] ls w Hsync HT Hls Hne Hq).
    reflexivity.
  - reflexivity.
  - unfold Api.emitOnce, emitOnce, bind at 1, get_informer. rewrite Hseen1.
    reflexivity.
  - rewrite invoked_mark_all. reflexivity.
  - reflexivity.
Qed.

Lemma emitOnce_round_trip_witness :
  let data := VObj [("a", PNum 1)] in
  let w0 := new_world [User []; User [SetStop]] in
  let w := fst (Api.on plain_receiver 2 (TStr "t") (VFun 1%nat)
                  (fst (Api.on plain_receiver 2 (TStr "t") (VFun 0%nat) w0))) in
  let calls := map (delivery (dispatch_context None "t" None) [data]) [0%nat; 1%nat] in
  exists w1 w2 em,
    Api.emitOnce plain_receiver 2 (TStr "t") data w = (w1, Ok tt)
    /\ trace w1 = trace w ++ calls
    /\ Api.emitOnce plain_receiver 2 (TStr "t") data w1 = (w1, Ok tt)
    /\ Api.emit plain_receiver 2 (TStr "t") [data] w1 = (w2, Ok em)
    /\ invoked em = [0%nat; 1%nat]
    /\ trace w2 = trace w1 ++ calls.
Proof.
  intros data w0 w.
  apply (emitOnce_round_trip plain_receiver 1 "t" data [0%nat; 1%nat] w).
  - reflexivity.
  - discriminate.
  - vm_compute. reflexivity.
  - vm_compute. reflexivity.
  - discriminate.
  - repeat constructor; eexists; (split; [vm_compute; reflexivity | reflexivity]).
Defined.

(** C8.  For every emitter and type descriptor, [queryListeners] marks the
    resolved type name as seen whatever [markAsSeen] is, and appends a
    present filter to [filterSeen]; so after the introspection call
    [listeners(T)] alone, on any emitter (a new one included),
    [hasBeenSeen] of the resolved type name is true. *)
Theorem queryListeners_always_marks_seen
    (E : Informer) (type : descriptor) (markAsSeen : value) :
  let E' := fst (queryListeners E type markAsSeen) in
  queryListeners E type markAsSeen = queryListeners E type (VPrim (PBool false))
  /\ simpleSeen E' !! typeName_of type = Some true
  /\ hasBeenSeen E' (TStr (typeName_of type)) = Ok true
  /\ filterSeen E' = filterSeen E ++ match filter_of type with
                                     | Some f => [f]
                                     | None => []
                                     end
  /\ hasBeenSeen (fst (listeners E type)) (TStr (typeName_of type)) = Ok true
  /\ (forall T,
        hasBeenSeen (fst (listeners new_Informer (TStr T))) (TStr T) = Ok true).
Proof.
  cbn zeta. unfold listeners, queryListeners, hasBeenSeen, read.
  cbn [fst simpleSeen filterSeen].
  repeat split.
  - apply lookup_insert_eq.
  - now rewrite lookup_insert_eq.
  - destruct (filter_of type); [reflexivity | now rewrite app_nil_r].
  - now rewrite lookup_insert_eq.
  - intros T. cbn [typeName_of]. now rewrite lookup_insert_eq.
Qed.








(** ** Further properties of the emitter: removal *)

Section RemovalFacts.

Variable task_this : task_receiver.
Variable call : fid -> option context -> list value -> M (option context).

Lemma with_simple_twice E T a b :
  with_simple (with_simple E T a) T b = with_simple E T b.
Proof.
  unfold with_simple. cbn [simpleListeners filterListeners listenTypes simpleSeen
                           filterSeen].
  now rewrite insert_insert_eq.
Qed.

Lemma no_removeListener_key E T ls :
  simpleListeners E !! T = Some ls ->
  has_key (simpleListeners E) "removeListener" = false ->
  T <> "removeListener".
Proof. intros Hls Hrm ->. unfold has_key in Hrm. now rewrite Hls in Hrm. Qed.

(** The reverse loop over a string type, when nobody listens for
    [removeListener]: of the first [n] entries those that are the target
    or wrap it are gone, the rest of the array is as it was. *)
Lemma remove_simple_spec that T g : forall n w ls,
  simpleListeners (informer w) !! T = Some ls ->
  (n <= length ls)%nat ->
  has_key (simpleListeners (informer w)) "removeListener" = false ->
  remove_simple task_this call that T g n w
  = (with_informer w
       (with_simple (informer w) T
          (List.filter (fun e => negb (same_listener (heap w) e g)) (take n ls)
           ++ drop n ls)),
     Ok tt).
Proof.
  induction n as [|n IH]; intros w ls Hls Hlen Hrm.
  - cbn [remove_simple take List.filter app drop]. unfold ret. f_equal.
    destruct w as [h E tr]. unfold with_informer, with_simple. cbn in *.
    rewrite insert_id by exact Hls. now destruct E.
  - pose proof (no_removeListener_key _ _ _ Hls Hrm) as HT.
    cbn [remove_simple]. unfold bind at 1, get_informer. unfold bind at 1, get_heap.
    rewrite Hls. change (default [] (Some ls)) with ls.
    destruct (lookup_lt_is_Some_2 ls n) as [e He]; [lia|].
    rewrite He. rewrite (take_S_r ls n e He), List.filter_app.
    cbn [List.filter].
    destruct (same_listener (heap w) e g) eqn:Hsame; cbn [negb].
    + unfold bind at 1. unfold bind at 1, set_informer.
      unfold notify_removed, bind at 1, get_informer. cbn [informer simpleListeners].
      assert (has_key (<[T := splice1 n ls]> (simpleListeners (informer w)))
                      "removeListener" = false) as Hrm'.
      { unfold has_key in *. now rewrite lookup_insert_ne by exact HT. }
      rewrite Hrm'. unfold ret at 1.
      rewrite (IH _ (splice1 n ls)); cbn [informer heap simpleListeners trace].
      * unfold with_informer. cbn [heap informer trace].
        fold (with_simple (informer w) T (splice1 n ls)).
        rewrite with_simple_twice. unfold splice1.
        rewrite take_app_length' by (rewrite length_take; lia).
        rewrite drop_app_length' by (rewrite length_take; lia).
        rewrite app_nil_r. reflexivity.
      * apply lookup_insert_eq.
      * unfold splice1. rewrite length_app, length_take, length_drop. lia.
      * exact Hrm'.
    + unfold bind at 1, ret at 1.
      rewrite (IH w ls Hls) by (lia || exact Hrm).
      rewrite (drop_S ls e n He), <- app_assoc. reflexivity.
Qed.

(** The same for the filter listeners of a type name. *)
Lemma remove_filtered_spec that F g : forall n w ls,
  filterListeners (informer w) !! filter_typeName F = Some ls ->
  (n <= length ls)%nat ->
  has_key (simpleListeners (informer w)) "removeListener" = false ->
  remove_filtered task_this call that F g n w
  = (with_informer w
       (mkInformer (simpleListeners (informer w))
          (<[filter_typeName F :=
               List.filter (fun e => negb (same_listener (heap w) (fst e) g
                                          && key_subset_match (snd e) F))
                           (take n ls)
               ++ drop n ls]> (filterListeners (informer w)))
          (listenTypes (informer w)) (simpleSeen (informer w))
          (filterSeen (informer w))),
     Ok tt).
Proof.
  induction n as [|n IH]; intros w ls Hls Hlen Hrm.
  - cbn [remove_filtered take List.filter app drop]. unfold ret. f_equal.
    destruct w as [h E tr]. unfold with_informer. cbn in *.
    rewrite insert_id by exact Hls. now destruct E.
  - cbn [remove_filtered]. unfold bind at 1, get_informer. unfold bind at 1, get_heap.
    cbn zeta. rewrite Hls. change (default [] (Some ls)) with ls.
    destruct (lookup_lt_is_Some_2 ls n) as [e He]; [lia|].
    rewrite He. rewrite (take_S_r ls n e He), List.filter_app.
    cbn [List.filter].
    destruct (same_listener (heap w) (fst e) g && key_subset_match (snd e) F)%bool
      eqn:Hsame; cbn [negb].
    + unfold bind at 1. unfold bind at 1, set_informer.
      unfold notify_removed, bind at 1, get_informer. cbn [informer simpleListeners].
      rewrite Hrm. unfold ret at 1.
      rewrite (IH _ (splice1 n ls));
        cbn [informer heap simpleListeners filterListeners listenTypes simpleSeen
             filterSeen trace].
      * unfold with_informer. cbn [heap informer trace].
        rewrite insert_insert_eq. unfold splice1.
        rewrite take_app_length' by (rewrite length_take; lia).
        rewrite drop_app_length' by (rewrite length_take; lia).
        rewrite app_nil_r. reflexivity.
      * apply lookup_insert_eq.
      * unfold splice1. rewrite length_app, length_take, length_drop. lia.
      * exact Hrm.
    + unfold bind at 1, ret at 1.
      rewrite (IH w ls Hls) by (lia || exact Hrm).
      rewrite (drop_S ls e n He), <- app_assoc. reflexivity.
Qed.

End RemovalFacts.

(** X1.  [removeListener(T, g)] for a string type whose name is not read
    off [Object.prototype], when nobody listens for [removeListener]:
    every entry of T that is [g] or wraps [g] is removed, the other
    entries keep their order, and nothing else changes: no other type, no
    filter listener, no seen mark, no call.  A type without listeners is
    left alone. *)
Theorem removeListener_removes_every_match
    task_this call that (T : string) (g : fid) (w : world) :
  own_or_absent (simpleListeners (informer w)) T ->
  has_key (simpleListeners (informer w)) "removeListener" = false ->
  exists w',
    removeListener task_this call that (TStr T) (VFun g) w = (w', Ok tt)
    /\ heap w' = heap w /\ trace w' = trace w
    /\ simpleListeners (informer w') !! T
       = List.filter (fun e => negb (same_listener (heap w) e g))
           <$> simpleListeners (informer w) !! T
    /\ (forall k, k <> T ->
          simpleListeners (informer w') !! k = simpleListeners (informer w) !! k)
    /\ filterListeners (informer w') = filterListeners (informer w)
    /\ listenTypes (informer w') = listenTypes (informer w)
    /\ simpleSeen (informer w') = simpleSeen (informer w)
    /\ filterSeen (informer w') = filterSeen (informer w).
Proof.
  intros HT Hrm. unfold removeListener, bind at 1, get_informer.
  rewrite (read_own_or_absent _ _ HT).
  destruct (simpleListeners (informer w) !! T) as [ls|] eqn:Hls.
  - rewrite (remove_simple_spec task_this call that T g (length ls) w ls Hls)
      by (lia || exact Hrm).
    rewrite firstn_all, drop_all, app_nil_r.
    eexists. split; [reflexivity|].
    cbn [with_informer with_simple heap trace informer simpleListeners
         filterListeners listenTypes simpleSeen filterSeen].
    split; [reflexivity|]. split; [reflexivity|].
    split; [now rewrite lookup_insert_eq|].
    split; [intros k Hk; now rewrite lookup_insert_ne by congruence|].
    repeat split.
  - eexists. split; [reflexivity|]. rewrite Hls. repeat split.
Qed.

Lemma removeListener_removes_every_match_witness :
  let w0 := new_world [User []; User []] in
  let w1 := fst (Api.on plain_receiver 3 (TStr "t") (VFun 0%nat) w0) in
  let w2 := fst (Api.on plain_receiver 3 (TStr "t") (VFun 1%nat) w1) in
  let w := fst (Api.on plain_receiver 3 (TStr "t") (VFun 0%nat) w2) in
  exists w',
    Api.removeListener plain_receiver 3 (TStr "t") (VFun 0%nat) w = (w', Ok tt)
    /\ simpleListeners (informer w) !! "t" = Some [0%nat; 1%nat; 0%nat]
    /\ simpleListeners (informer w') !! "t" = Some [1%nat].
Proof.
  intros w0 w1 w2 w.
  destruct (removeListener_removes_every_match plain_receiver
              (apply plain_receiver 3) None "t" 0%nat w)
    as (w' & Hrun & _ & _ & Hls & _).
  - apply own_or_absent_plain. reflexivity.
  - vm_compute. reflexivity.
  - exists w'. split; [exact Hrun|]. split; [vm_compute; reflexivity|].
    etransitivity; [exact Hls | vm_compute; reflexivity].
Defined.



(** ** Further properties of the emitter: subscription *)

(** X3.  A listener that is not a function is rejected by every
    subscription method and by [removeListener] with the TypeError
    'listener must be a function', before anything is allocated,
    registered, announced or called; for [many], [after] and [afterOnce]
    the listener is the one left after the optional [times] argument. *)
Theorem non_function_listener_is_rejected
    task_this call that (type : descriptor) (times listener : value) (w : world) :
  is_function (snd (times_and_listener 1 times listener)) = false ->
  let rejected := (w, @Fault unit (TypeError "listener must be a function")) in
  addListener task_this call that type
    (snd (times_and_listener 1 times listener)) w = rejected
  /\ removeListener task_this call that type
       (snd (times_and_listener 1 times listener)) w = rejected
  /\ many task_this call that type times listener w = rejected
  /\ after task_this call that type times listener w = rejected
  /\ afterOnce task_this call that type times listener w = rejected.
Proof.
  intros Hf rejected. subst rejected.
  destruct times as [[| | |n|]| | | |]; destruct listener as [[| | | |]| | | |];
    cbn in Hf; try discriminate Hf; repeat split.
Qed.

Lemma non_function_listener_is_rejected_witness :
  let w := new_world [User []] in
  many plain_receiver (apply plain_receiver 3) None (TStr "t")
       (VPrim (PNum 2)) (VPrim (PStr "not a function")) w
  = (w, Fault (TypeError "listener must be a function"))
  /\ after plain_receiver (apply plain_receiver 3) None (TStr "t")
           (VObj []) (VFun 0%nat) w
     = (w, Fault (TypeError "listener must be a function")).
Proof.
  intros w. split.
  - apply (non_function_listener_is_rejected plain_receiver (apply plain_receiver 3)
             None (TStr "t") (VPrim (PNum 2)) (VPrim (PStr "not a function")) w).
    reflexivity.
  - apply (non_function_listener_is_rejected plain_receiver (apply plain_receiver 3)
             None (TStr "t") (VObj []) (VFun 0%nat) w).
    reflexivity.
Defined.

(** ** Further properties of the emitter: counting wrappers *)

Lemma all_return_app call context args pre post w w1 w2 :
  all_return call context args pre w w1 ->
  all_return call context args post w1 w2 ->
  all_return call context args (pre ++ post) w w2.
Proof.
  induction 1 as [|e rest w0 w3 w4 this' Hcall Hrest IH]; intros Hpost.
  - exact Hpost.
  - cbn [app]. econstructor; [exact Hcall | now apply IH].
Qed.

Lemma quiet_not_shim h f g type k L fired :
  quiet h f -> h !! g = Some (Shim type k L fired) -> f <> g.
Proof. intros (body & Hf & _) Hg ->. unfold fid in *. congruence. Qed.

Lemma quiet_insert h f g c type k L fired :
  quiet h f -> h !! g = Some (Shim type k L fired) -> quiet (<[g := c]> h) f.
Proof.
  intros Hq Hg. pose proof (quiet_not_shim _ _ _ _ _ _ _ Hq Hg) as Hne.
  destruct Hq as (body & Hf & Hb). exists body. split; [|exact Hb].
  unfold fid in *. rewrite list_lookup_insert_ne by congruence. exact Hf.
Qed.

Lemma same_listener_quiet h e g :
  quiet h e -> e <> g -> same_listener h e g = false.
Proof.
  intros (body & He & _) Hne. unfold same_listener. unfold fid in *.
  rewrite He. rewrite orb_false_r. now apply Nat.eqb_neq.
Qed.

Lemma filter_keeps_quiet h g ls :
  Forall (quiet h) ls -> ~ In g ls ->
  List.filter (fun e => negb (same_listener h e g)) ls = ls.
Proof.
  induction ls as [|e ls IH]; intros Hq Hin; [reflexivity|].
  apply Forall_cons in Hq as [Hq1 Hq2]. cbn [List.filter].
  rewrite same_listener_quiet; [|exact Hq1|intros ->; apply Hin; now left].
  cbn [negb]. f_equal. apply IH; [exact Hq2|]. intros H. apply Hin. now right.
Qed.

(** One call of the function [g] of [many] or [after] subscribed to the
    string type [T], with a dispatch context: the count goes up by one,
    the wrapper leaves the list of [T] when the count reaches the limit,
    and the wrapped listener is called with the same context and
    arguments. *)
Lemma shim_step task_this n (g : fid) (T : string) (k : Z) (L : fid) (fired : Z)
    (c : context) (args : list value) (pre post : list fid) (w : world) :
  heap w !! g = Some (Shim (TStr T) k L fired) ->
  has_key (simpleListeners (informer w)) "removeListener" = false ->
  simpleListeners (informer w) !! T = Some (pre ++ g :: post) ->
  Forall (quiet (heap w)) pre ->
  Forall (quiet (heap w)) post ->
  quiet (heap w) L ->
  c_wait c = true ->
  exists c',
    apply task_this (S (S n)) g (Some c) args w
    = (mkWorld (<[g := Shim (TStr T) k L (fired + 1)]> (heap w))
         (if Z.eqb (fired + 1) k
          then with_simple (informer w) T (pre ++ post)
          else informer w)
         (trace w ++ [mkCall g (Some c) args; mkCall L (Some c) args]),
       Ok (Some c')).
Proof.
  intros Hg Hrm Hls Hpre Hpost HL Hw.
  set (h' := <[g := Shim (TStr T) k L (fired + 1)]> (heap w)).
  assert (Hq' : forall f, quiet (heap w) f -> quiet h' f).
  { intros f Hf. eapply quiet_insert; [exact Hf | exact Hg]. }
  assert (HL' : forall E tr,
             exists c',
               apply task_this (S n) L (Some c) args (mkWorld h' E tr)
               = (mkWorld h' E (tr ++ [mkCall L (Some c) args]), Ok (Some c'))).
  { intros E tr.
    destruct (apply_quiet task_this n L c args (mkWorld h' E tr)) as [c' Hc'];
      [apply Hq'; exact HL | exact Hw |].
    exists c'. exact Hc'. }
  rewrite apply_S. cbn zeta. rewrite Hg.
  unfold run_shim. unfold bind at 1, get_heap. unfold bind at 1, set_heap.
  cbn [with_trace heap informer trace]. fold h'.
  destruct (Z.eqb (fired + 1) k) eqn:Hk.
  - unfold bind at 1. unfold removeListener, bind at 1, get_informer.
    cbn [informer]. rewrite (read_own _ _ _ Hls).
    rewrite (remove_simple_spec task_this (apply task_this (S n)) (Some c) T g
               (length (pre ++ g :: post)) _ (pre ++ g :: post));
      [| exact Hls | lia | exact Hrm].
    rewrite firstn_all, drop_all, app_nil_r. cbn [heap].
    assert (Hfilter : List.filter (fun e => negb (same_listener h' e g))
                                  (pre ++ g :: post) = pre ++ post).
    { assert (Hnot : forall l, Forall (quiet (heap w)) l -> ~ In g l).
      { intros l Hl Hin. rewrite Forall_forall in Hl.
        apply list_elem_of_In, Hl in Hin.
        now apply (quiet_not_shim _ _ _ _ _ _ _ Hin Hg). }
      rewrite List.filter_app. cbn [List.filter].
      assert (same_listener h' g g = true) as ->.
      { unfold same_listener. now rewrite Nat.eqb_refl. }
      cbn [negb].
      rewrite !filter_keeps_quiet; try reflexivity.
      - eapply Forall_impl; [exact Hpost | exact Hq'].
      - now apply Hnot.
      - eapply Forall_impl; [exact Hpre | exact Hq'].
      - now apply Hnot. }
    rewrite Hfilter. unfold with_informer. cbn [heap informer trace].
    destruct (HL' (with_simple (informer w) T (pre ++ post))
                  (trace w ++ [mkCall g (Some c) args])) as [c' Hc'].
    exists c'. rewrite Hc'. rewrite <- app_assoc. reflexivity.
  - unfold bind at 1, ret at 1.
    destruct (HL' (informer w) (trace w ++ [mkCall g (Some c) args])) as [c' Hc'].
    exists c'. rewrite Hc'. rewrite <- app_assoc. reflexivity.
Qed.

(** One emission of the string type [T] whose listeners are client
    functions that leave the emitter alone and, somewhere among them, a
    counting wrapper [g] around such a function [L]. *)
Lemma emit_with_shim task_this n (T : string) (k : Z) (L : fid) (fired : Z)
    (g : fid) (pre post : list fid) (args : list value) (w : world) :
  r_type task_this = false ->
  T <> "" ->
  heap w !! g = Some (Shim (TStr T) k L fired) ->
  has_key (simpleListeners (informer w)) "removeListener" = false ->
  simpleListeners (informer w) !! T = Some (pre ++ g :: post) ->
  Forall (quiet (heap w)) pre ->
  Forall (quiet (heap w)) post ->
  quiet (heap w) L ->
  let context := dispatch_context None T None in
  let E1 := fst (queryListeners (informer w) (TStr T) (VPrim (PBool true))) in
  Api.emit task_this (S (S n)) (TStr T) args w
  = (mkWorld (<[g := Shim (TStr T) k L (fired + 1)]> (heap w))
       (if Z.eqb (fired + 1) k then with_simple E1 T (pre ++ post) else E1)
       (trace w ++ map (delivery context args) pre
        ++ [mkCall g (Some context) args; mkCall L (Some context) args]
        ++ map (delivery context args) post),
     Ok (mark_all task_this (pre ++ g :: post) fresh_emission)).
Proof.
  intros Hsync HT Hg Hrm Hls Hpre Hpost HL context E1.
  pose proof (query_simple (informer w) T (VPrim (PBool true)) _ HT Hls) as Hquery.
  unfold Api.emit.
  erewrite emit_all_return; [ | exact Hsync | exact Hquery | reflexivity | | ].
  - rewrite map_fst_simple. reflexivity.
  - destruct pre; discriminate.
  - cbn [q_typeName q_filter]. fold context. fold E1.
    rewrite map_app. cbn [map].
    set (h' := <[g := Shim (TStr T) k L (fired + 1)]> (heap w)).
    pose proof (all_return_quiet task_this (S n) context args
                  (map (fun l : fid => (l, @None obj)) pre)
                  (with_informer w E1)) as Hpre'.
    rewrite map_fst_simple in Hpre'. specialize (Hpre' Hpre eq_refl).
    eapply all_return_app; [exact Hpre'|].
    set (w1 := with_trace (with_informer w E1)
                 (trace (with_informer w E1) ++ map (delivery context args) pre)).
    destruct (shim_step task_this n g T k L fired context args pre post w1)
      as [c' Hc']; try assumption; try reflexivity.
    econstructor; [exact Hc'|].
    cbn [informer with_trace with_informer w1 heap trace]. fold h'.
    pose proof (all_return_quiet task_this (S n) context args
                  (map (fun l : fid => (l, @None obj)) post)
                  (mkWorld h'
                     (if Z.eqb (fired + 1) k then with_simple E1 T (pre ++ post) else E1)
                     ((trace w ++ map (delivery context args) pre)
                      ++ [mkCall g (Some context) args; mkCall L (Some context) args])))
      as Hpost'.
    rewrite map_fst_simple in Hpost'.
    unfold with_trace in Hpost'. cbn [heap informer trace] in Hpost'.
    rewrite <- !app_assoc in Hpost'. cbn [app] in Hpost'.
    rewrite <- !app_assoc. cbn [app].
    apply Hpost'; [|reflexivity].
    eapply Forall_impl; [exact Hpost|]. intros f Hfq.
    eapply quiet_insert; [exact Hfq | exact Hg].
Qed.

Section Counting.

Variable task_this : task_receiver.
Variable n : nat.
Variables (T : string) (k : Z) (L g : fid) (pre post : list fid) (args : list value).
Hypothesis sync_receiver : r_type task_this = false.
Hypothesis named : T <> "".
Hypothesis not_among : ~ In L (pre ++ post).

Lemma counting_L_not_g fired w : counting T k L g pre post fired w -> L <> g.
Proof.
  intros (Hg & _ & _ & _ & _ & HL). eapply quiet_not_shim; [exact HL | exact Hg].
Qed.

Lemma calls_of_one f c a : calls_of f [mkCall f c a] = [mkCall f c a].
Proof. unfold calls_of. cbn. now rewrite Nat.eqb_refl. Qed.

Lemma calls_of_other f f' c a : f' <> f -> calls_of f [mkCall f' c a] = [].
Proof.
  intros Hne. unfold calls_of. cbn.
  destruct (Nat.eqb f' f) eqn:E; [|reflexivity].
  apply Nat.eqb_eq in E. contradiction.
Qed.

(** One emission while the wrapper is subscribed. *)
Lemma counting_step fired w :
  counting T k L g pre post fired w ->
  exists w' em,
    Api.emit task_this (S (S n)) (TStr T) args w = (w', Ok em)
    /\ calls_of L (trace w')
       = calls_of L (trace w) ++ [mkCall L (Some (dispatch_context None T None)) args]
    /\ (if Z.eqb (fired + 1) k
        then settled T (pre ++ post) w'
        else counting T k L g pre post (fired + 1) w').
Proof.
  intros Hc. pose proof (counting_L_not_g _ _ Hc) as HLg.
  destruct Hc as (Hg & Hrm & Hls & Hpre & Hpost & HL).
  pose proof (emit_with_shim task_this n T k L fired g pre post args w
                sync_receiver named Hg Hrm Hls Hpre Hpost HL) as Hemit.
  cbn zeta in Hemit.
  eexists _, _. split; [exact Hemit|].
  assert (Hq' : forall f, quiet (heap w) f ->
                          quiet (<[g := Shim (TStr T) k L (fired + 1)]> (heap w)) f).
  { intros f Hf. eapply quiet_insert; [exact Hf | exact Hg]. }
  cbn [trace heap informer]. split.
  - rewrite !calls_of_app.
    rewrite (calls_of_deliveries L (dispatch_context None T None) args pre)
      by (intros H; apply not_among, in_or_app; now left).
    rewrite (calls_of_deliveries L (dispatch_context None T None) args post)
      by (intros H; apply not_among, in_or_app; now right).
    change [mkCall g (Some (dispatch_context None T None)) args; mkCall L (Some (dispatch_context None T None)) args]
      with ([mkCall g (Some (dispatch_context None T None)) args] ++ [mkCall L (Some (dispatch_context None T None)) args]).
    rewrite calls_of_app, calls_of_other by congruence.
    rewrite calls_of_one. cbn [app]. rewrite ?app_nil_r. reflexivity.
  - destruct (Z.eqb (fired + 1) k).
    + split.
      * cbn [informer with_simple simpleListeners]. apply lookup_insert_eq.
      * cbn [heap]. apply Forall_app. split;
          (eapply Forall_impl; [eassumption | exact Hq']).
    + repeat split; cbn [heap informer queryListeners fst simpleListeners].
      * unfold fid in *. apply list_lookup_insert_eq.
        eapply lookup_lt_Some. exact Hg.
      * exact Hrm.
      * exact Hls.
      * eapply Forall_impl; [exact Hpre | exact Hq'].
      * eapply Forall_impl; [exact Hpost | exact Hq'].
      * apply Hq'. exact HL.
Qed.

(** One emission once the wrapper is gone. *)
Lemma settled_step w :
  T <> "error" ->
  settled T (pre ++ post) w ->
  exists w' em,
    Api.emit task_this (S (S n)) (TStr T) args w = (w', Ok em)
    /\ calls_of L (trace w') = calls_of L (trace w)
    /\ settled T (pre ++ post) w'.
Proof.
  intros Herr (Hls & Hq). pose proof not_among as Hna.
  destruct (pre ++ post) as [|l ls] eqn:Hpp.
  - unfold Api.emit.
    erewrite emit_no_listener;
      [ | apply (query_simple _ _ _ _ named Hls) | reflexivity].
    assert (is_error_type (TStr T) = false) as ->.
    { cbn. destruct (String.eqb T "error") eqn:E; [|reflexivity].
      apply String.eqb_eq in E. contradiction. }
    eexists _, _. split; [reflexivity|]. split; [reflexivity|].
    split; [exact Hls | constructor].
  - unfold Api.emit.
    rewrite (emit_quiet_simple task_this (S n) T args (l :: ls) w
               sync_receiver named Hls) by (discriminate || exact Hq).
    eexists _, _. split; [reflexivity|]. cbn [trace heap informer]. split.
    + rewrite calls_of_app, calls_of_deliveries by exact Hna.
      apply app_nil_r.
    + split; [exact Hls | exact Hq].
Qed.

Lemma settled_forever w : forall j,
  T <> "error" ->
  settled T (pre ++ post) w ->
  exists w',
    emit_repeatedly task_this (S (S n)) (TStr T) args j w = (w', Ok tt)
    /\ calls_of L (trace w') = calls_of L (trace w)
    /\ settled T (pre ++ post) w'.
Proof.
  intros j Herr. revert w.
  induction j as [|j IH]; intros w Hs.
  - exists w. split; [reflexivity|]. split; [reflexivity | exact Hs].
  - destruct (settled_step w Herr Hs) as (w1 & em & Hemit & Hcalls & Hs1).
    destruct (IH w1 Hs1) as (w2 & Hrun & Hcalls2 & Hs2).
    exists w2. split; [|split].
    + cbn [emit_repeatedly]. unfold bind. rewrite Hemit. exact Hrun.
    + now rewrite Hcalls2.
    + exact Hs2.
Qed.

End Counting.

Section CountingRuns.

Variable task_this : task_receiver.
Variable n : nat.
Variables (T : string) (k : Z) (L g : fid) (pre post : list fid) (args : list value).
Hypothesis sync_receiver : r_type task_this = false.
Hypothesis named : T <> "".
Hypothesis not_among : ~ In L (pre ++ post).

Lemma emit_repeatedly_add a b w w1 :
  emit_repeatedly task_this (S (S n)) (TStr T) args a w = (w1, Ok tt) ->
  emit_repeatedly task_this (S (S n)) (TStr T) args (a + b) w
  = emit_repeatedly task_this (S (S n)) (TStr T) args b w1.
Proof.
  revert w. induction a as [|a IH]; intros w Ha.
  - cbn in Ha. injection Ha as ->. reflexivity.
  - cbn [emit_repeatedly Nat.add] in *. unfold bind in *.
    destruct (Api.emit task_this (S (S n)) (TStr T) args w) as [w2 [em|e|]];
      try discriminate Ha.
    now apply IH.
Qed.

(** [j] emissions none of which brings the count to the limit. *)
Lemma counting_run : forall j fired w,
  (forall i, (0 < i <= j)%nat -> (fired + Z.of_nat i)%Z <> k) ->
  counting T k L g pre post fired w ->
  exists w',
    emit_repeatedly task_this (S (S n)) (TStr T) args j w = (w', Ok tt)
    /\ calls_of L (trace w')
       = calls_of L (trace w)
         ++ repeat (mkCall L (Some (dispatch_context None T None)) args) j
    /\ counting T k L g pre post (fired + Z.of_nat j) w'.
Proof.
  induction j as [|j IH]; intros fired w Hno Hc.
  - exists w. split; [reflexivity|]. split; [now rewrite app_nil_r|].
    now rewrite Z.add_0_r.
  - destruct (counting_step task_this n T k L g pre post args
                sync_receiver named not_among fired w Hc)
      as (w1 & em & Hemit & Hcalls & Hnext).
    assert (Hk : Z.eqb (fired + 1) k = false).
    { apply Z.eqb_neq. apply (Hno 1%nat). lia. }
    rewrite Hk in Hnext.
    destruct (IH (fired + 1)%Z w1) as (w2 & Hrun & Hcalls2 & Hc2).
    + intros i Hi. replace (fired + 1 + Z.of_nat i)%Z
        with (fired + Z.of_nat (S i))%Z by lia.
      apply Hno. lia.
    + exact Hnext.
    + exists w2. split; [|split].
      * cbn [emit_repeatedly]. unfold bind. rewrite Hemit. exact Hrun.
      * rewrite Hcalls2, Hcalls, <- app_assoc. reflexivity.
      * replace (fired + Z.of_nat (S j))%Z with (fired + 1 + Z.of_nat j)%Z by lia.
        exact Hc2.
Qed.

End CountingRuns.

(** X4.  A counting wrapper of [many] or [after] among the listeners of
    a string type other than '' and 'error', whose limit lies [m + 1]
    calls ahead, where the wrapped listener and the other listeners of
    the type are client functions that leave the emitter alone and nobody
    listens for [removeListener], in synchronous dispatch: each of the
    next [m + 1] emissions calls the wrapped listener exactly once, with
    the dispatch context and the arguments of that emission; the wrapper
    stays subscribed until the last of them and is gone after it, the
    other listeners keeping their places; and however many emissions
    follow, the listener is not called again. *)
Theorem wrapper_delivers_until_its_limit
    task_this n (T : string) (k : Z) (L g : fid) (pre post : list fid)
    (args : list value) (fired : Z) (m : nat) (w : world) :
  r_type task_this = false ->
  T <> "" ->
  T <> "error" ->
  ~ In L (pre ++ post) ->
  counting T k L g pre post fired w ->
  k = (fired + Z.of_nat (S m))%Z ->
  let call_of_L := mkCall L (Some (dispatch_context None T None)) args in
  (forall j, (j <= m)%nat ->
     exists w',
       emit_repeatedly task_this (S (S n)) (TStr T) args j w = (w', Ok tt)
       /\ calls_of L (trace w') = calls_of L (trace w) ++ repeat call_of_L j
       /\ simpleListeners (informer w') !! T = Some (pre ++ g :: post))
  /\ (forall extra,
        exists w',
          emit_repeatedly task_this (S (S n)) (TStr T) args (S m + extra) w
          = (w', Ok tt)
          /\ calls_of L (trace w') = calls_of L (trace w) ++ repeat call_of_L (S m)
          /\ simpleListeners (informer w') !! T = Some (pre ++ post)).
Proof.
  intros Hsync HT Herr Hin Hc Hk call_of_L.
  assert (Hrun : forall j, (j <= m)%nat ->
            exists w',
              emit_repeatedly task_this (S (S n)) (TStr T) args j w = (w', Ok tt)
              /\ calls_of L (trace w') = calls_of L (trace w) ++ repeat call_of_L j
              /\ counting T k L g pre post (fired + Z.of_nat j) w').
  { intros j Hj. apply (counting_run task_this n T k L g pre post args Hsync HT Hin).
    - intros i Hi. lia.
    - exact Hc. }
  split.
  - intros j Hj. destruct (Hrun j Hj) as (w' & Hr & Hcalls & Hc').
    exists w'. split; [exact Hr|]. split; [exact Hcalls|]. apply Hc'.
  - intros extra. destruct (Hrun m (Nat.le_refl m)) as (w1 & Hr & Hcalls & Hc1).
    destruct (counting_step task_this n T k L g pre post args Hsync HT Hin _ w1 Hc1)
      as (w2 & em & Hemit & Hcalls2 & Hnext).
    assert (Z.eqb (fired + Z.of_nat m + 1) k = true) as Hlim
      by (apply Z.eqb_eq; lia).
    rewrite Hlim in Hnext.
    destruct (settled_forever task_this n T L pre post args Hsync HT Hin w2 extra
                Herr Hnext) as (w3 & Hrun3 & Hcalls3 & Hs3).
    exists w3. split; [|split].
    + replace (S m + extra)%nat with (m + S extra)%nat by lia.
      rewrite (emit_repeatedly_add task_this n T args m (S extra) w w1 Hr).
      cbn [emit_repeatedly]. unfold bind. rewrite Hemit. exact Hrun3.
    + rewrite Hcalls3, Hcalls2, Hcalls, <- app_assoc.
      f_equal. replace (S m) with (m + 1)%nat by lia.
      rewrite repeat_app. reflexivity.
    + apply Hs3.
Qed.

(** X5.  A counting wrapper among the listeners of a non-empty string
    type whose limit is not ahead of its count (a limit of zero or below,
    as in [many(T, 0, L)] or [after(T, L)] with its default of -1, or a
    limit already passed) never unsubscribes: where the wrapped listener
    and the other listeners of the type are client functions that leave
    the emitter alone and nobody listens for [removeListener], in
    synchronous dispatch, each of any number of emissions calls the
    wrapped listener once and the wrapper stays among the listeners. *)
Theorem wrapper_without_limit_ahead_stays
    task_this n (T : string) (k : Z) (L g : fid) (pre post : list fid)
    (args : list value) (fired : Z) (j : nat) (w : world) :
  r_type task_this = false ->
  T <> "" ->
  ~ In L (pre ++ post) ->
  counting T k L g pre post fired w ->
  (k <= fired)%Z ->
  exists w',
    emit_repeatedly task_this (S (S n)) (TStr T) args j w = (w', Ok tt)
    /\ calls_of L (trace w')
       = calls_of L (trace w)
         ++ repeat (mkCall L (Some (dispatch_context None T None)) args) j
    /\ simpleListeners (informer w') !! T = Some (pre ++ g :: post)
    /\ heap w' !! g = Some (Shim (TStr T) k L (fired + Z.of_nat j)).
Proof.
  intros Hsync HT Hin Hc Hk.
  destruct (counting_run task_this n T k L g pre post args Hsync HT Hin j fired w)
    as (w' & Hr & Hcalls & Hc'); [intros i Hi; lia | exact Hc |].
  exists w'. split; [exact Hr|]. split; [exact Hcalls|].
  split; apply Hc'.
Qed.

Lemma wrapper_delivers_until_its_limit_witness :
  let w0 := new_world [User []; User [SetStop]] in
  let w1 := fst (Api.on plain_receiver 3 (TStr "t") (VFun 0%nat) w0) in
  let w := fst (Api.once plain_receiver 3 (TStr "t") (VPrim (PNum 2)) (VFun 1%nat) w1) in
  let call_of_L := mkCall 1%nat (Some (dispatch_context None "t" None)) [VPrim (PNum 7)] in
  simpleListeners (informer w) !! "t" = Some [0%nat; 2%nat]
  /\ exists w',
       emit_repeatedly plain_receiver 3 (TStr "t") [VPrim (PNum 7)] 5 w = (w', Ok tt)
       /\ calls_of 1%nat (trace w') = [call_of_L; call_of_L]
       /\ simpleListeners (informer w') !! "t" = Some [0%nat].
Proof.
  intros w0 w1 w call_of_L. split; [vm_compute; reflexivity|].
  destruct (wrapper_delivers_until_its_limit plain_receiver 1 "t" 2 1%nat 2%nat
              [0%nat] [] [VPrim (PNum 7)] 0 1 w) as [_ H].
  - reflexivity.
  - discriminate.
  - discriminate.
  - intros [H|[]]. discriminate H.
  - unfold counting. repeat split; try (vm_compute; reflexivity).
    + repeat constructor. eexists. split; [vm_compute; reflexivity | reflexivity].
    + constructor.
    + eexists. split; [vm_compute; reflexivity | reflexivity].
  - reflexivity.
  - destruct (H 3%nat) as (w' & Hrun & Hcalls & Hls).
    exists w'. split; [exact Hrun|]. split; [|exact Hls].
    etransitivity; [exact Hcalls | vm_compute; reflexivity].
Defined.

Lemma wrapper_without_limit_ahead_stays_witness :
  let w0 := new_world [User []] in
  let w := fst (Api.once plain_receiver 3 (TStr "t") (VPrim (PNum 0)) (VFun 0%nat) w0) in
  exists w',
    emit_repeatedly plain_receiver 3 (TStr "t") [] 4 w = (w', Ok tt)
    /\ length (calls_of 0%nat (trace w')) = 4%nat
    /\ simpleListeners (informer w') !! "t" = Some [1%nat]
    /\ heap w' !! 1%nat = Some (Shim (TStr "t") 0 0%nat 4).
Proof.
  intros w0 w.
  destruct (wrapper_without_limit_ahead_stays plain_receiver 1 "t" 0 0%nat 1%nat
              [] [] [] 0 4 w) as (w' & Hrun & Hcalls & Hls & Hg).
  - reflexivity.
  - discriminate.
  - intros [].
  - unfold counting. repeat split; try (vm_compute; reflexivity).
    + constructor.
    + constructor.
    + eexists. split; [vm_compute; reflexivity | reflexivity].
  - lia.
  - exists w'. split; [exact Hrun|]. split; [|split; [exact Hls | exact Hg]].
    rewrite Hcalls. vm_compute. reflexivity.
Defined.

(** What [many(T, k, L)] leaves behind when nobody listens for
    [newListener]: a new wrapper with count 0, last among the listeners
    of [T]. *)
Lemma many_subscribes task_this call that (T : string) (k : Z) (L : fid) (w : world) :
  own_or_absent (simpleListeners (informer w)) T ->
  has_key (simpleListeners (informer w)) "newListener" = false ->
  has_key (filterListeners (informer w)) "newListener" = false ->
  many task_this call that (TStr T) (VPrim (PNum k)) (VFun L) w
  = (mkWorld (heap w ++ [Shim (TStr T) k L 0])
             (subscribed (informer w) T (length (heap w))) (trace w),
     Ok tt).
Proof.
  intros HT H1 H2. unfold many. cbn [times_and_listener].
  erewrite bind_ok by apply alloc_spec.
  rewrite addListener_simple by assumption. reflexivity.
Qed.

Lemma many_establishes_counting task_this call that (T : string) (k : Z) (L : fid)
    (old : list fid) (w : world) :
  own_or_absent (simpleListeners (informer w)) T ->
  has_key (simpleListeners (informer w)) "newListener" = false ->
  has_key (filterListeners (informer w)) "newListener" = false ->
  has_key (simpleListeners (informer w)) "removeListener" = false ->
  T <> "removeListener" ->
  default [] (simpleListeners (informer w) !! T) = old ->
  Forall (quiet (heap w)) old ->
  quiet (heap w) L ->
  counting T k L (length (heap w)) old [] 0
    (fst (many task_this call that (TStr T) (VPrim (PNum k)) (VFun L) w)).
Proof.
  intros Hown H1 H2 Hrm HT Hold Hq HL.
  rewrite many_subscribes by assumption. cbn [fst].
  unfold counting. cbn [heap informer subscribed simpleListeners].
  split; [unfold fid; now apply list_lookup_middle|].
  split; [unfold has_key in *; now rewrite lookup_insert_ne by exact HT|].
  split; [rewrite lookup_insert_eq, Hold; reflexivity|].
  split; [eapply Forall_impl; [exact Hq | intros f; apply quiet_app]|].
  split; [constructor | now apply quiet_app].
Qed.

(** X6.  [once(T, L)] for a string type T other than '', 'error' and
    'removeListener' whose name is not read off [Object.prototype], on an
    emitter where nobody listens for the meta-events and [L] and the
    listeners of T are client functions that leave the emitter alone, in
    synchronous dispatch: the subscription calls nothing, the first
    [emit(T, ...)] calls [L] exactly once, and however many emissions
    follow, [L] is not called again and the listeners of T are those from
    before the subscription. *)
Theorem once_delivers_the_first_emission_only
    task_this n (T : string) (L : fid) (old : list fid) (args : list value)
    (later : nat) (w : world) :
  r_type task_this = false ->
  T <> "" -> T <> "error" -> T <> "removeListener" ->
  own_or_absent (simpleListeners (informer w)) T ->
  has_key (simpleListeners (informer w)) "newListener" = false ->
  has_key (filterListeners (informer w)) "newListener" = false ->
  has_key (simpleListeners (informer w)) "removeListener" = false ->
  default [] (simpleListeners (informer w) !! T) = old ->
  Forall (quiet (heap w)) old ->
  quiet (heap w) L ->
  ~ In L old ->
  exists w1 w2,
    Api.once task_this (S (S n)) (TStr T) (VFun L) VUndefined w = (w1, Ok tt)
    /\ trace w1 = trace w
    /\ emit_repeatedly task_this (S (S n)) (TStr T) args (S later) w1 = (w2, Ok tt)
    /\ calls_of L (trace w2)
       = calls_of L (trace w) ++ [mkCall L (Some (dispatch_context None T None)) args]
    /\ simpleListeners (informer w2) !! T = Some old.
Proof.
  intros Hsync HT Herr Hrl Hown H1 H2 Hrm Hold Hq HL Hin.
  assert (Hin' : ~ In L (old ++ [])) by now rewrite app_nil_r.
  pose proof (many_establishes_counting task_this (apply task_this (S (S n))) None
                T 1 L old w Hown H1 H2 Hrm Hrl Hold Hq HL) as Hc.
  pose proof (many_subscribes task_this (apply task_this (S (S n))) None T 1 L w
                Hown H1 H2) as Hsub.
  rewrite Hsub in Hc. cbn [fst] in Hc.
  destruct (counting_step task_this n T 1 L _ old [] args Hsync HT Hin' 0 _ Hc)
    as (w2 & em & Hemit & Hcalls & Hnext).
  change (Z.eqb (0 + 1) 1) with true in Hnext. cbn iota in Hnext.
  destruct (settled_forever task_this n T L old [] args Hsync HT Hin' w2 later
              Herr Hnext) as (w3 & Hrun & Hcalls3 & Hs3).
  eexists _, w3. split; [exact Hsub|]. split; [reflexivity|]. split; [|split].
  - cbn [emit_repeatedly]. unfold bind. rewrite Hemit. exact Hrun.
  - rewrite Hcalls3, Hcalls. reflexivity.
  - destruct Hs3 as [Hls _]. now rewrite app_nil_r in Hls.
Qed.

Lemma once_delivers_the_first_emission_only_witness :
  let w0 := new_world [User []; User [Wait (PStr "parallel") None]] in
  let w := fst (Api.on plain_receiver 3 (TStr "t") (VFun 0%nat) w0) in
  exists w1 w2,
    Api.once plain_receiver 3 (TStr "t") (VFun 1%nat) VUndefined w = (w1, Ok tt)
    /\ trace w1 = trace w
    /\ emit_repeatedly plain_receiver 3 (TStr "t") [VPrim (PStr "x")] 3 w1 = (w2, Ok tt)
    /\ calls_of 1%nat (trace w2)
       = calls_of 1%nat (trace w)
         ++ [mkCall 1%nat (Some (dispatch_context None "t" None)) [VPrim (PStr "x")]]
    /\ simpleListeners (informer w2) !! "t" = Some [0%nat].
Proof.
  intros w0 w.
  apply (once_delivers_the_first_emission_only plain_receiver 1 "t" 1%nat [0%nat]
           [VPrim (PStr "x")] 2 w).
  - reflexivity.
  - discriminate.
  - discriminate.
  - discriminate.
  - apply own_or_absent_plain. reflexivity.
  - vm_compute. reflexivity.
  - vm_compute. reflexivity.
  - vm_compute. reflexivity.
  - vm_compute. reflexivity.
  - repeat constructor. eexists. split; [vm_compute; reflexivity | reflexivity].
  - eexists. split; [vm_compute; reflexivity | reflexivity].
  - intros [H|[]]. discriminate H.
Defined.

(** ** The shape of the registry is an invariant *)

Section RegistryInvariant.

Local Abbreviation WF := (fun w : world => registry_wf (informer w)).

Lemma preserves_ret {A} (P : world -> Prop) (a : A) : preserves P (ret a).
Proof. intros w H. exact H. Qed.

Lemma preserves_fault {A} (P : world -> Prop) e : preserves P (@fault A e).
Proof. intros w H. exact H. Qed.

Lemma preserves_bind {A B} (P : world -> Prop) (m : M A) (k : A -> M B) :
  preserves P m -> (forall a, preserves P (k a)) -> preserves P (bind m k).
Proof.
  intros Hm Hk w H. unfold bind. specialize (Hm w H).
  destruct (m w) as [w' [a|e|]]; cbn [fst] in *; try exact Hm.
  now apply Hk.
Qed.

Lemma preserves_attempt {A} (P : world -> Prop) (m : M A) :
  preserves P m -> preserves P (attempt m).
Proof.
  intros Hm w H. unfold attempt. specialize (Hm w H).
  destruct (m w) as [w' [a|e|]]; exact Hm.
Qed.

(** Reading the registry, then running a computation that may rely on
    the registry read being well formed. *)
Lemma preserves_read {A} (k : Informer -> M A) :
  (forall E, registry_wf E -> preserves WF (k E)) ->
  preserves WF (bind get_informer k).
Proof. intros Hk w H. unfold bind, get_informer. now apply Hk. Qed.

Lemma preserves_read_heap {A} (P : world -> Prop) (k : list closure -> M A) :
  (forall h, preserves P (k h)) -> preserves P (bind get_heap k).
Proof. intros Hk w H. unfold bind, get_heap. now apply Hk. Qed.

Lemma preserves_set_informer E : registry_wf E -> preserves WF (set_informer E).
Proof. intros HE w _. exact HE. Qed.

Lemma preserves_set_heap h : preserves WF (set_heap h).
Proof. intros w H. exact H. Qed.

Lemma preserves_alloc c : preserves WF (alloc c).
Proof. intros w H. exact H. Qed.

Lemma preserves_record_call r : preserves WF (record_call r).
Proof. intros w H. exact H. Qed.

Lemma preserves_lift {A} (P : world -> Prop) (r : outcome A) : preserves P (lift r).
Proof. intros w H. exact H. Qed.

Lemma preserves_on_informer {A} (method : Informer -> Informer * outcome A) :
  (forall E, registry_wf E -> registry_wf (fst (method E))) ->
  preserves WF (on_informer method).
Proof. intros Hm w H. unfold on_informer. cbn [fst informer]. now apply Hm. Qed.

Lemma registry_wf_new : registry_wf new_Informer.
Proof.
  unfold registry_wf, new_Informer. cbn. repeat split; intros *;
    rewrite lookup_empty; discriminate.
Qed.

Lemma registry_wf_query E type m :
  registry_wf E -> registry_wf (fst (queryListeners E type m)).
Proof. intros H. exact H. Qed.

Lemma registry_wf_simple E T ls old :
  registry_wf E -> simpleListeners E !! T = Some old ->
  registry_wf (mkInformer (<[T := ls]> (simpleListeners E)) (filterListeners E)
                          (listenTypes E) (simpleSeen E) (filterSeen E)).
Proof.
  intros (H1 & H2 & H3) Hold. unfold registry_wf. cbn. split; [|split].
  - intros k l Hk. destruct (decide (T = k)) as [->|Hne].
    + eapply H1. exact Hold.
    + rewrite lookup_insert_ne in Hk by exact Hne. eapply H1. exact Hk.
  - exact H2.
  - exact H3.
Qed.

Lemma registry_wf_simple_new E T ls :
  registry_wf E ->
  registry_wf (mkInformer (<[T := ls]> (simpleListeners E)) (filterListeners E)
                          (listenTypes E ++ [T]) (simpleSeen E) (filterSeen E)).
Proof.
  intros (H1 & H2 & H3). unfold registry_wf. cbn. split; [|split].
  - intros k l Hk. apply in_or_app. destruct (decide (T = k)) as [->|Hne].
    + right. now left.
    + rewrite lookup_insert_ne in Hk by exact Hne. left. eapply H1. exact Hk.
  - intros k l Hk. apply in_or_app. left. eapply H2. exact Hk.
  - exact H3.
Qed.

Lemma registry_wf_filter E T ls old :
  registry_wf E -> filterListeners E !! T = Some old ->
  (forall e, In e ls -> In e old \/ filter_typeName (snd e) = T) ->
  registry_wf (mkInformer (simpleListeners E) (<[T := ls]> (filterListeners E))
                          (listenTypes E) (simpleSeen E) (filterSeen E)).
Proof.
  intros (H1 & H2 & H3) Hold Hsub. unfold registry_wf. cbn. split; [|split].
  - exact H1.
  - intros k l Hk. destruct (decide (T = k)) as [->|Hne].
    + eapply H2. exact Hold.
    + rewrite lookup_insert_ne in Hk by exact Hne. eapply H2. exact Hk.
  - intros k l e Hk He. destruct (decide (T = k)) as [->|Hne].
    + rewrite lookup_insert_eq in Hk. injection Hk as <-.
      destruct (Hsub e He) as [Hin|Hty]; [|exact Hty]. eapply H3; eassumption.
    + rewrite lookup_insert_ne in Hk by exact Hne. eapply H3; eassumption.
Qed.

Lemma registry_wf_filter_new E T ls :
  registry_wf E ->
  (forall e, In e ls -> filter_typeName (snd e) = T) ->
  registry_wf (mkInformer (simpleListeners E) (<[T := ls]> (filterListeners E))
                          (listenTypes E ++ [T]) (simpleSeen E) (filterSeen E)).
Proof.
  intros (H1 & H2 & H3) Hsub. unfold registry_wf. cbn. split; [|split].
  - intros k l Hk. apply in_or_app. left. eapply H1. exact Hk.
  - intros k l Hk. apply in_or_app. destruct (decide (T = k)) as [->|Hne].
    + right. now left.
    + rewrite lookup_insert_ne in Hk by exact Hne. left. eapply H2. exact Hk.
  - intros k l e Hk He. destruct (decide (T = k)) as [->|Hne].
    + rewrite lookup_insert_eq in Hk. injection Hk as <-. now apply Hsub.
    + rewrite lookup_insert_ne in Hk by exact Hne. eapply H3; eassumption.
Qed.

Lemma In_splice1 {A} (i : nat) (l : list A) (x : A) : In x (splice1 i l) -> In x l.
Proof.
  unfold splice1. intros H. apply in_app_or in H as [H|H].
  - rewrite <- (take_drop i l). apply in_or_app. now left.
  - rewrite <- (take_drop (S i) l). apply in_or_app. now right.
Qed.

Variable task_this : task_receiver.
Variable call : fid -> option context -> list value -> M (option context).
Hypothesis call_wf : forall f this args, preserves WF (call f this args).

Lemma series_wf tasks done :
  Forall (fun t : task => forall em, preserves WF (t em)) tasks ->
  (forall em e, preserves WF (done em e)) ->
  forall em, preserves WF (series tasks done em).
Proof.
  intros Ht Hd. induction Ht as [|t rest Ht _ IH]; intros em.
  - apply Hd.
  - cbn [series]. apply preserves_bind; [apply preserves_attempt, Ht|].
    intros [[em1 [err afterwards|]]|e].
    + apply preserves_bind; [|intros; apply preserves_ret].
      destruct (truthy err); [apply Hd | apply IH].
    + apply preserves_ret.
    + apply Hd.
Qed.

Lemma doListener_wf that q args entry em :
  preserves WF (doListener task_this call that q args entry em).
Proof.
  unfold doListener. destruct (fst entry) as [listener|]; [|apply preserves_fault].
  apply preserves_bind; [apply call_wf|]. intros this'.
  destruct (negb (r_type task_this) || r_ListenerIsDone task_this)%bool;
    [apply preserves_ret|].
  destruct (r_type_is_series task_this); apply preserves_ret.
Qed.

Lemma seriesDone_wf args em err :
  preserves WF (seriesDone call args em err).
Proof.
  unfold seriesDone, call_cb.
  destruct (negb (truthy (isAsync em))).
  - destruct (truthy err); [apply preserves_fault | apply preserves_ret].
  - destruct (array_last args);
      try (destruct (truthy err); [apply preserves_fault | apply preserves_ret]).
    destruct (subtasks em) as [|s subs].
    + apply preserves_bind; [apply call_wf | intros; apply preserves_ret].
    + destruct (parallel _); [|apply preserves_ret].
      apply preserves_bind; [apply call_wf | intros; apply preserves_ret].
Qed.

Lemma emit_wf that type args : preserves WF (emit task_this call that type args).
Proof.
  unfold emit. apply preserves_bind.
  { apply preserves_on_informer. intros E HE. now apply registry_wf_query. }
  intros q.
  destruct (is_error_type type && Nat.ltb (q_length q) 3)%bool.
  { destruct (hd VUndefined args); apply preserves_fault. }
  destruct (Nat.ltb (q_length q) 3); [apply preserves_ret|].
  rewrite tasks_built by reflexivity. cbn [app].
  apply series_wf; [|intros; apply seriesDone_wf].
  apply List.Forall_forall. intros t Ht. apply in_map_iff in Ht as (entry & <- & _).
  intros em. apply doListener_wf.
Qed.

Lemma addListener_wf that type listener :
  preserves WF (addListener task_this call that type listener).
Proof.
  unfold addListener. destruct listener; try apply preserves_fault.
  apply preserves_read. intros E0 _. apply preserves_read_heap. intros h.
  apply preserves_bind.
  { destruct (has_key _ _ || has_key _ _)%bool; [|apply preserves_ret].
    apply preserves_bind; [apply emit_wf | intros; apply preserves_ret]. }
  intros _. apply preserves_read. intros E HE.
  destruct type as [s|F]; cbn [typeName_of]; unfold read.
  - destruct (simpleListeners E !! s) as [ls|] eqn:Hls.
    + apply preserves_set_informer. eapply registry_wf_simple; eassumption.
    + destruct (Object_prototype s); [apply preserves_fault|].
      apply preserves_set_informer. now apply registry_wf_simple_new.
  - destruct (filterListeners E !! filter_typeName F) as [ls|] eqn:Hls.
    + apply preserves_set_informer.
      eapply registry_wf_filter; [exact HE | exact Hls |].
      intros e He. apply in_app_or in He as [He|[<-|[]]]; [now left | now right].
    + destruct (Object_prototype (filter_typeName F)); [apply preserves_fault|].
      apply preserves_set_informer.
      apply registry_wf_filter_new; [exact HE|].
      intros e [<-|[]]. reflexivity.
Qed.

Lemma notify_removed_wf that type removed :
  preserves WF (notify_removed task_this call that type removed).
Proof.
  unfold notify_removed. apply preserves_read. intros E _.
  destruct (has_key _ _); [|apply preserves_ret].
  apply preserves_bind; [apply emit_wf | intros; apply preserves_ret].
Qed.

Lemma remove_simple_wf that T g : forall i,
  preserves WF (remove_simple task_this call that T g i).
Proof.
  induction i as [|i IH]; [apply preserves_ret|].
  cbn [remove_simple]. apply preserves_read. intros E HE.
  apply preserves_read_heap. intros h.
  destruct (simpleListeners E !! T) as [ls|] eqn:Hls.
  - change (default [] (Some ls)) with ls.
    destruct (ls !! i) as [e|]; [|apply preserves_fault].
    apply preserves_bind; [|intros; apply IH].
    destruct (same_listener h e g); [|apply preserves_ret].
    apply preserves_bind; [|intros; apply notify_removed_wf].
    apply preserves_set_informer. eapply registry_wf_simple; eassumption.
  - change (default [] None) with (@nil fid).
    rewrite lookup_nil. apply preserves_fault.
Qed.

Lemma remove_filtered_wf that F g : forall i,
  preserves WF (remove_filtered task_this call that F g i).
Proof.
  induction i as [|i IH]; [apply preserves_ret|].
  cbn [remove_filtered]. apply preserves_read. intros E HE.
  apply preserves_read_heap. intros h. cbn zeta.
  destruct (filterListeners E !! filter_typeName F) as [ls|] eqn:Hls.
  - change (default [] (Some ls)) with ls.
    destruct (ls !! i) as [e|]; [|apply preserves_fault].
    apply preserves_bind; [|intros; apply IH].
    destruct (same_listener h (fst e) g && key_subset_match (snd e) F)%bool;
      [|apply preserves_ret].
    apply preserves_bind; [|intros; apply notify_removed_wf].
    apply preserves_set_informer. eapply registry_wf_filter; [exact HE | exact Hls |].
    intros x Hx. left. eapply In_splice1. exact Hx.
  - change (default [] None) with (@nil (fid * obj)).
    rewrite lookup_nil. apply preserves_fault.
Qed.

Lemma removeListener_wf that type listener :
  preserves WF (removeListener task_this call that type listener).
Proof.
  unfold removeListener. destruct listener; try apply preserves_fault.
  apply preserves_read. intros E _. destruct type as [s|F].
  - destruct (read (simpleListeners E) s) as [ls|[[|len]|]|];
      try apply preserves_ret; [apply remove_simple_wf | apply preserves_fault].
  - destruct (read (filterListeners E) (filter_typeName F)) as [ls|[[|len]|]|];
      try apply preserves_ret; [apply remove_filtered_wf | apply preserves_fault].
Qed.

Lemma many_wf that type times listener :
  preserves WF (many task_this call that type times listener).
Proof.
  unfold many. destruct (times_and_listener 1 times listener) as [k l].
  destruct l; try apply preserves_fault.
  apply preserves_bind; [apply preserves_alloc | intros; apply addListener_wf].
Qed.

Lemma after_wf that type times listener :
  preserves WF (after task_this call that type times listener).
Proof.
  unfold after. destruct (times_and_listener (-1) times listener) as [k l].
  destruct l; try apply preserves_fault.
  apply preserves_bind; [apply preserves_alloc|]. intros g.
  apply preserves_bind; [apply addListener_wf|]. intros _.
  apply preserves_read. intros E _.
  apply preserves_bind; [apply preserves_lift|]. intros [|]; [|apply preserves_ret].
  apply preserves_bind; [apply call_wf | intros; apply preserves_ret].
Qed.

Lemma afterOnce_wf that type times listener :
  preserves WF (afterOnce task_this call that type times listener).
Proof.
  unfold afterOnce. destruct (times_and_listener 1 times listener) as [k l].
  apply after_wf.
Qed.

Lemma emitOnce_wf that type data :
  preserves WF (emitOnce task_this call that type data).
Proof.
  unfold emitOnce. apply preserves_read. intros E _.
  apply preserves_bind; [apply preserves_lift|]. intros seen.
  destruct (negb seen); [|apply preserves_ret].
  apply preserves_bind; [apply emit_wf | intros; apply preserves_ret].
Qed.

Lemma remove_each_simple_wf that T : forall l,
  preserves WF (remove_each_simple task_this call that T l).
Proof.
  induction l as [|x l IH]; [apply preserves_ret|].
  cbn [remove_each_simple].
  apply preserves_bind; [apply removeListener_wf | intros; apply IH].
Qed.

Lemma remove_each_filtered_wf that : forall l,
  preserves WF (remove_each_filtered task_this call that l).
Proof.
  induction l as [|x l IH]; [apply preserves_ret|].
  cbn [remove_each_filtered].
  apply preserves_bind; [apply removeListener_wf | intros; apply IH].
Qed.

Lemma removeAllListeners_wf that type :
  preserves WF (removeAllListeners task_this call that type).
Proof.
  unfold removeAllListeners. destruct type as [s|F].
  - apply preserves_read. intros E _.
    apply preserves_bind.
    { destruct (read (simpleListeners E) s) as [ls|[[|len]|]|];
        try apply preserves_ret;
        [apply remove_each_simple_wf | apply removeListener_wf]. }
    intros _. apply preserves_read. intros E' _.
    destruct (read (filterListeners E') s) as [ls|[[|len]|]|];
      try apply preserves_ret;
      [apply remove_each_filtered_wf | apply preserves_fault].
  - apply preserves_read. intros E _.
    destruct (read (filterListeners E) (filter_typeName F)) as [ls|[[|len]|]|];
      try apply preserves_ret;
      [apply remove_each_filtered_wf | apply preserves_fault].
Qed.

Lemma run_action_wf a this : preserves WF (run_action task_this call a this).
Proof.
  destruct a, this as [c|]; cbn [run_action];
    try apply preserves_ret; try apply preserves_fault;
    try (apply preserves_bind; [|intros; apply preserves_ret]).
  - destruct (c_wait c); [apply preserves_ret | apply preserves_fault].
  - apply addListener_wf.
  - apply many_wf.
  - apply after_wf.
  - apply afterOnce_wf.
  - apply removeListener_wf.
  - apply emit_wf.
  - apply emitOnce_wf.
Qed.

Lemma run_script_wf body : forall this,
  preserves WF (run_script task_this call body this).
Proof.
  induction body as [|a body IH]; intros this; [apply preserves_ret|].
  cbn [run_script]. apply preserves_bind; [apply run_action_wf | intros; apply IH].
Qed.

Lemma run_shim_wf f type times listener fired this args :
  preserves WF (run_shim task_this call f type times listener fired this args).
Proof.
  unfold run_shim. apply preserves_read_heap. intros h.
  apply preserves_bind; [apply preserves_set_heap|]. intros _.
  apply preserves_bind; [|intros; apply call_wf].
  destruct (Z.eqb (fired + 1) times); [|apply preserves_ret].
  destruct this; [apply removeListener_wf | apply preserves_fault].
Qed.

End RegistryInvariant.

Lemma apply_wf task_this : forall depth f this args,
  preserves (fun w => registry_wf (informer w)) (apply task_this depth f this args).
Proof.
  induction depth as [|d IH]; intros f this args.
  - intros w H. exact H.
  - cbn [apply]. apply preserves_bind; [apply preserves_record_call|]. intros _.
    apply preserves_read_heap. intros h.
    destruct (h !! f) as [[body|type times listener fired]|].
    + apply run_script_wf. exact IH.
    + apply run_shim_wf. exact IH.
    + apply preserves_fault.
Qed.

(** X7.  The shape of the registry is an invariant of the emitter: it
    holds of a new emitter, and every method, and every function call
    made on the way (listeners that subscribe, remove and emit in turn
    included, to any depth), leaves it in place however the method
    ends: each type name that owns a list of listeners is in
    [listenTypes], and each filter listener is stored under the type
    name of its filter. *)
Theorem registry_stays_well_formed task_this depth that (w : world) :
  registry_wf (informer w) ->
  registry_wf new_Informer
  /\ (forall f this args,
        registry_wf (informer (fst (apply task_this depth f this args w))))
  /\ (forall type args,
        registry_wf (informer (fst (emit task_this (apply task_this depth) that
                                         type args w))))
  /\ (forall type data,
        registry_wf (informer (fst (emitOnce task_this (apply task_this depth) that
                                             type data w))))
  /\ (forall type l,
        registry_wf (informer (fst (addListener task_this (apply task_this depth) that
                                                type l w))))
  /\ (forall type times l,
        registry_wf (informer (fst (many task_this (apply task_this depth) that
                                         type times l w)))
        /\ registry_wf (informer (fst (after task_this (apply task_this depth) that
                                             type times l w)))
        /\ registry_wf (informer (fst (afterOnce task_this (apply task_this depth) that
                                                 type times l w))))
  /\ (forall type l,
        registry_wf (informer (fst (removeListener task_this (apply task_this depth)
                                                   that type l w))))
  /\ (forall type,
        registry_wf (informer (fst (removeAllListeners task_this
                                      (apply task_this depth) that type w)))).
Proof.
  intros Hw. pose proof (apply_wf task_this depth) as Hcall.
  split; [apply registry_wf_new|].
  split; [intros; now apply Hcall|].
  split; [intros; now apply (emit_wf task_this _ Hcall)|].
  split; [intros; now apply (emitOnce_wf task_this _ Hcall)|].
  split; [intros; now apply (addListener_wf task_this _ Hcall)|].
  split.
  { intros type times l. split; [|split].
    - now apply (many_wf task_this _ Hcall).
    - now apply (after_wf task_this _ Hcall).
    - now apply (afterOnce_wf task_this _ Hcall). }
  split; [intros; now apply (removeListener_wf task_this _ Hcall)|].
  intros; now apply (removeAllListeners_wf task_this _ Hcall).
Qed.

Lemma registry_stays_well_formed_witness :
  let w0 := new_world [User [CallOn (TFilter [("id", PNum 1)]) (VFun 1%nat);
                             CallRemoveListener (TStr "t") (VFun 0%nat)];
                       User [Raise VUndefined]] in
  let w := fst (Api.on plain_receiver 4 (TStr "t") (VFun 0%nat) w0) in
  registry_wf (informer (fst (emit plain_receiver (apply plain_receiver 4) None
                                   (TStr "t") [] w)))
  /\ listenTypes (informer (fst (emit plain_receiver (apply plain_receiver 4) None
                                      (TStr "t") [] w))) = ["t"; ""].
Proof.
  intros w0 w. split; [|vm_compute; reflexivity].
  apply (registry_stays_well_formed plain_receiver 4 None w).
  apply (addListener_wf plain_receiver (apply plain_receiver 4)
           (apply_wf plain_receiver 4) None (TStr "t") (VFun 0%nat)).
  apply registry_wf_new.
Defined.

(** ** removeAllListeners *)

Lemma fold_filter_in {A} (rm : A -> A -> bool) (l0 : list A) : forall cur x,
  In x (fold_left (fun c e => List.filter (fun y => negb (rm y e)) c) l0 cur) ->
  In x cur /\ forall e, In e l0 -> rm x e = false.
Proof.
  induction l0 as [|e0 l0 IH]; intros cur x Hx.
  - split; [exact Hx | intros e []].
  - cbn [fold_left] in Hx. apply IH in Hx as [Hin Hrest].
    apply filter_In in Hin as [Hin Hkeep]. split; [exact Hin|].
    intros e [<-|He]; [now apply negb_true_iff in Hkeep | now apply Hrest].
Qed.

Section RemoveAllFacts.

Variable task_this : task_receiver.
Variable call : fid -> option context -> list value -> M (option context).

Lemma remove_each_simple_spec that T : forall l0 w cur,
  simpleListeners (informer w) !! T = Some cur ->
  has_key (simpleListeners (informer w)) "removeListener" = false ->
  remove_each_simple task_this call that T l0 w
  = (with_informer w
       (with_simple (informer w) T
          (fold_left (fun c e =>
                        List.filter (fun y => negb (same_listener (heap w) y e)) c)
                     l0 cur)),
     Ok tt).
Proof.
  induction l0 as [|l l0 IH]; intros w cur Hcur Hrm.
  - cbn [remove_each_simple fold_left]. unfold ret. f_equal.
    destruct w as [h E tr]. unfold with_informer, with_simple. cbn in *.
    rewrite insert_id by exact Hcur. now destruct E.
  - pose proof (no_removeListener_key _ _ _ Hcur Hrm) as HT.
    cbn [remove_each_simple fold_left]. unfold bind at 1.
    unfold removeListener, bind at 1, get_informer. rewrite (read_own _ _ _ Hcur).
    rewrite (remove_simple_spec task_this call that T l (length cur) w cur Hcur)
      by (lia || exact Hrm).
    rewrite firstn_all, drop_all, app_nil_r.
    rewrite (IH _ (List.filter (fun y => negb (same_listener (heap w) y l)) cur)).
    + unfold with_informer. cbn [heap informer trace].
      now rewrite with_simple_twice.
    + cbn [with_informer informer with_simple simpleListeners]. apply lookup_insert_eq.
    + cbn [with_informer informer with_simple simpleListeners]. unfold has_key in *.
      now rewrite lookup_insert_ne by exact HT.
Qed.

Lemma remove_each_filtered_spec that T : forall l0 w cur,
  Forall (fun e => filter_typeName (snd e) = T) l0 ->
  filterListeners (informer w) !! T = Some cur ->
  has_key (simpleListeners (informer w)) "removeListener" = false ->
  remove_each_filtered task_this call that l0 w
  = (with_informer w
       (mkInformer (simpleListeners (informer w))
          (<[T := fold_left
                    (fun c e =>
                       List.filter
                         (fun y => negb (same_listener (heap w) (fst y) (fst e)
                                         && key_subset_match (snd y) (snd e))) c)
                    l0 cur]> (filterListeners (informer w)))
          (listenTypes (informer w)) (simpleSeen (informer w))
          (filterSeen (informer w))),
     Ok tt).
Proof.
  induction l0 as [|e l0 IH]; intros w cur Hall Hcur Hrm.
  - cbn [remove_each_filtered fold_left]. unfold ret. f_equal.
    destruct w as [h E tr]. unfold with_informer. cbn in *.
    rewrite insert_id by exact Hcur. now destruct E.
  - apply Forall_cons in Hall as [He Hall].
    cbn [remove_each_filtered fold_left]. unfold bind at 1.
    unfold removeListener, bind at 1, get_informer.
    rewrite He, (read_own _ _ _ Hcur).
    pose proof (remove_filtered_spec task_this call that (snd e) (fst e)
                  (length cur) w cur) as Hspec.
    rewrite He in Hspec. rewrite Hspec by (lia || assumption).
    rewrite firstn_all, drop_all, app_nil_r.
    rewrite (IH _ (List.filter
                     (fun y => negb (same_listener (heap w) (fst y) (fst e)
                                     && key_subset_match (snd y) (snd e))) cur)).
    + unfold with_informer.
      cbn [heap informer trace simpleListeners filterListeners listenTypes
           simpleSeen filterSeen].
      now rewrite insert_insert_eq.
    + exact Hall.
    + cbn [with_informer informer filterListeners]. apply lookup_insert_eq.
    + exact Hrm.
Qed.

End RemoveAllFacts.

Lemma fold_filter_self {A} (rm : A -> A -> bool) (l : list A) :
  (forall x, rm x x = true) ->
  fold_left (fun c e => List.filter (fun y => negb (rm y e)) c) l l = [].
Proof.
  intros Hrefl.
  destruct (fold_left _ l l) as [|x r] eqn:Hf; [reflexivity|].
  assert (Hx : In x (fold_left (fun c e => List.filter (fun y => negb (rm y e)) c) l l))
    by (rewrite Hf; now left).
  apply fold_filter_in in Hx as [Hin Hno].
  specialize (Hno x Hin). rewrite Hrefl in Hno. discriminate.
Qed.

Lemma remove_each_simple_all task_this call that T ls w :
  simpleListeners (informer w) !! T = Some ls ->
  has_key (simpleListeners (informer w)) "removeListener" = false ->
  remove_each_simple task_this call that T ls w
  = (with_informer w (with_simple (informer w) T []), Ok tt).
Proof.
  intros Hls Hrm. destruct ls as [|x l].
  - cbn [remove_each_simple]. unfold ret. f_equal.
    destruct w as [h E tr]. unfold with_informer, with_simple. cbn in *.
    rewrite insert_id by exact Hls. now destruct E.
  - rewrite (remove_each_simple_spec task_this call that T (x :: l) w (x :: l) Hls Hrm).
    rewrite (fold_filter_self (same_listener (heap w))); [reflexivity|].
    intros y. unfold same_listener. now rewrite Nat.eqb_refl.
Qed.

Lemma remove_each_filtered_all task_this call that T ls w :
  Forall (fun e => filter_typeName (snd e) = T) ls ->
  filterListeners (informer w) !! T = Some ls ->
  has_key (simpleListeners (informer w)) "removeListener" = false ->
  remove_each_filtered task_this call that ls w
  = (with_informer w
       (mkInformer (simpleListeners (informer w))
                   (<[T := []]> (filterListeners (informer w)))
                   (listenTypes (informer w)) (simpleSeen (informer w))
                   (filterSeen (informer w))),
     Ok tt).
Proof.
  intros Hall Hls Hrm. destruct ls as [|x l].
  - cbn [remove_each_filtered]. unfold ret. f_equal.
    destruct w as [h E tr]. unfold with_informer. cbn in *.
    rewrite insert_id by exact Hls. now destruct E.
  - rewrite (remove_each_filtered_spec task_this call that T (x :: l) w (x :: l)
               Hall Hls Hrm).
    rewrite (fold_filter_self
               (fun y e => same_listener (heap w) (fst y) (fst e)
                           && key_subset_match (snd y) (snd e))%bool);
      [reflexivity|].
    intros y. unfold same_listener.
    now rewrite Nat.eqb_refl, key_subset_match_refl.
Qed.

Lemma registry_wf_slot E T ls :
  registry_wf E -> filterListeners E !! T = Some ls ->
  Forall (fun e => filter_typeName (snd e) = T) ls.
Proof.
  intros (_ & _ & H3) Hls. apply List.Forall_forall. intros e He.
  eapply H3; eassumption.
Qed.

(** X8.  [removeAllListeners(T)] for a string type whose name is not the
    name of a member of [Object.prototype], on a well-formed registry
    where nobody listens for [removeListener]: the simple
    listeners of T and the filter listeners stored under T are all
    removed (the lists stay, empty); the listeners of other type names,
    the filter listeners under the empty name among them, the seen marks
    and [listenTypes] are untouched, and no function is called. *)
Theorem removeAllListeners_empties_the_type
    task_this call that (T : string) (w : world) :
  Object_prototype T = None ->
  registry_wf (informer w) ->
  has_key (simpleListeners (informer w)) "removeListener" = false ->
  exists w',
    removeAllListeners task_this call that (TStr T) w = (w', Ok tt)
    /\ heap w' = heap w /\ trace w' = trace w
    /\ simpleListeners (informer w') !! T
       = (fun _ => []) <$> simpleListeners (informer w) !! T
    /\ filterListeners (informer w') !! T
       = (fun _ => []) <$> filterListeners (informer w) !! T
    /\ (forall k, k <> T ->
          simpleListeners (informer w') !! k = simpleListeners (informer w) !! k
          /\ filterListeners (informer w') !! k = filterListeners (informer w) !! k)
    /\ listenTypes (informer w') = listenTypes (informer w)
    /\ simpleSeen (informer w') = simpleSeen (informer w)
    /\ filterSeen (informer w') = filterSeen (informer w).
Proof.
  intros Hplain Hwf Hrm. unfold removeAllListeners.
  unfold bind at 1, get_informer. rewrite (read_plain _ _ Hplain). unfold bind at 1.
  assert (Hsimple : exists sl',
             match simpleListeners (informer w) !! T with
             | Some listeners => remove_each_simple task_this call that T listeners
             | None => ret tt
             end w
             = (with_informer w
                  (mkInformer sl' (filterListeners (informer w))
                     (listenTypes (informer w)) (simpleSeen (informer w))
                     (filterSeen (informer w))), Ok tt)
             /\ sl' !! T = (fun _ => []) <$> simpleListeners (informer w) !! T
             /\ (forall k, k <> T -> sl' !! k = simpleListeners (informer w) !! k)
             /\ has_key sl' "removeListener" = false).
  { destruct (simpleListeners (informer w) !! T) as [ls|] eqn:Hls.
    - exists (<[T := []]> (simpleListeners (informer w))).
      rewrite (remove_each_simple_all task_this call that T ls w Hls Hrm).
      split; [reflexivity|]. split; [apply lookup_insert_eq|].
      split; [intros k Hk; now rewrite lookup_insert_ne by congruence|].
      pose proof (no_removeListener_key _ _ _ Hls Hrm) as HT.
      unfold has_key in *. now rewrite lookup_insert_ne by exact HT.
    - exists (simpleListeners (informer w)).
      unfold ret.
      split; [|repeat split; assumption].
      f_equal. destruct w as [h [] tr]. reflexivity. }
  assert (Hmatch : forall (o : option (list fid)) (w0 : world),
             match match o with Some v => Own v | None => Absent end with
             | Own listeners => remove_each_simple task_this call that T listeners
             | Inherited (ProtoFunction (S _)) =>
                 removeListener task_this call that (TStr T) VUndefined
             | Inherited _ | Absent => ret tt
             end w0
             = match o with
               | Some listeners => remove_each_simple task_this call that T listeners
               | None => ret tt
               end w0).
  { intros [v|] w0; reflexivity. }
  rewrite Hmatch. clear Hmatch.
  destruct Hsimple as (sl' & -> & HslT & Hslk & Hrm').
  unfold bind at 1, get_informer. cbn [with_informer informer filterListeners].
  rewrite (read_plain _ _ Hplain).
  destruct (filterListeners (informer w) !! T) as [fl|] eqn:Hfl.
  - rewrite (remove_each_filtered_all task_this call that T fl);
      [ | eapply registry_wf_slot; eassumption | exact Hfl | exact Hrm'].
    eexists. split; [reflexivity|].
    cbn [with_informer heap trace informer simpleListeners filterListeners
         listenTypes simpleSeen filterSeen].
    split; [reflexivity|]. split; [reflexivity|]. split; [exact HslT|].
    split; [apply lookup_insert_eq|].
    split; [|repeat split].
    intros k Hk. split; [now apply Hslk | now rewrite lookup_insert_ne by congruence].
  - unfold ret.
    eexists. split; [reflexivity|].
    cbn [heap trace informer simpleListeners filterListeners
         listenTypes simpleSeen filterSeen].
    split; [reflexivity|]. split; [reflexivity|]. split; [exact HslT|].
    split; [exact Hfl|].
    split; [|repeat split].
    intros k Hk. split; [now apply Hslk | reflexivity].
Qed.

Lemma removeAllListeners_empties_the_type_witness :
  let w0 := new_world [User []; User []] in
  let w1 := fst (Api.on plain_receiver 3 (TStr "t") (VFun 0%nat) w0) in
  let w2 := fst (Api.once plain_receiver 3 (TStr "t") (VFun 1%nat) VUndefined w1) in
  let w3 := fst (Api.on plain_receiver 3 (TFilter [("type", PStr "t"); ("id", PNum 5)])
                   (VFun 1%nat) w2) in
  let w := fst (Api.on plain_receiver 3 (TFilter [("id", PNum 5)]) (VFun 1%nat) w3) in
  exists w',
    removeAllListeners plain_receiver (apply plain_receiver 3) None (TStr "t") w
    = (w', Ok tt)
    /\ simpleListeners (informer w') !! "t" = Some []
    /\ filterListeners (informer w') !! "t" = Some []
    /\ filterListeners (informer w') !! "" = Some [(1%nat, [("id", PNum 5)])].
Proof.
  intros w0 w1 w2 w3 w.
  destruct (removeAllListeners_empties_the_type plain_receiver
              (apply plain_receiver 3) None "t" w)
    as (w' & Hrun & _ & _ & Hs & Hf & Hk & _).
  - reflexivity.
  - repeat (first [ apply (addListener_wf plain_receiver (apply plain_receiver 3)
                             (apply_wf plain_receiver 3))
                  | apply (many_wf plain_receiver (apply plain_receiver 3)
                             (apply_wf plain_receiver 3)) ]).
    apply registry_wf_new.
  - vm_compute. reflexivity.
  - exists w'. split; [exact Hrun|].
    split; [etransitivity; [exact Hs | vm_compute; reflexivity]|].
    split; [etransitivity; [exact Hf | vm_compute; reflexivity]|].
    destruct (Hk "") as [_ Hk2]; [discriminate|].
    etransitivity; [exact Hk2 | vm_compute; reflexivity].
Defined.




(** ** Replay subscription, further *)

(** X10.  On a string type that has not been seen, where nobody listens
    for [newListener], [after] is [many]: it subscribes the same kind of
    counting wrapper and calls nothing; without a [times] argument the
    limit is -1. *)
Theorem after_without_replay_is_many
    task_this call that (T : string) (times listener : value) (w : world) :
  hasBeenSeen (informer w) (TStr T) = Ok false ->
  has_key (simpleListeners (informer w)) "newListener" = false ->
  has_key (filterListeners (informer w)) "newListener" = false ->
  after task_this call that (TStr T) times listener w
  = match times with
    | VPrim (PNum k) => many task_this call that (TStr T) times listener w
    | _ => many task_this call that (TStr T) (VPrim (PNum (-1))) times w
    end
  /\ trace (fst (after task_this call that (TStr T) times listener w)) = trace w.
Proof.
  intros Hseen H1 H2.
  assert (Hadd : forall g w0,
             informer w0 = informer w ->
             exists E' r,
               addListener task_this call that (TStr T) (VFun g) w0
               = (mkWorld (heap w0) E' (trace w0), r)
               /\ simpleSeen E' = simpleSeen (informer w)).
  { intros g [h0 E0 t0] Hw0. cbn [informer] in Hw0. subst E0. unfold addListener.
    unfold bind at 1, get_informer. unfold bind at 1, get_heap.
    cbn [informer heap trace]. rewrite H1, H2. cbn [orb]. unfold bind at 1, ret.
    unfold bind at 1, get_informer. cbn [typeName_of informer].
    destruct (read (simpleListeners (informer w)) T) as [ls|m|];
      eexists _, _; (split; [reflexivity|]); reflexivity. }
  assert (Hgen : forall k l,
             after task_this call that (TStr T) (VPrim (PNum k)) l w
             = many task_this call that (TStr T) (VPrim (PNum k)) l w
             /\ trace (fst (after task_this call that (TStr T) (VPrim (PNum k)) l w))
                = trace w).
  { intros k l.
    destruct l as [p|en em|f|o|a b];
      try (unfold after, many; cbn [times_and_listener]; split; reflexivity).
    destruct (Hadd (length (heap w))
                (mkWorld (heap w ++ [Shim (TStr T) k f 0]) (informer w) (trace w))
                eq_refl) as (E' & r & Hrun & Hsame).
    cbn [heap trace] in Hrun.
    assert (Hmany : many task_this call that (TStr T) (VPrim (PNum k)) (VFun f) w
                    = (mkWorld (heap w ++ [Shim (TStr T) k f 0]) E' (trace w), r)).
    { unfold many. cbn [times_and_listener].
      erewrite bind_ok by apply alloc_spec. exact Hrun. }
    assert (Hafter : after task_this call that (TStr T) (VPrim (PNum k)) (VFun f) w
                     = (mkWorld (heap w ++ [Shim (TStr T) k f 0]) E' (trace w), r)).
    { unfold after. cbn [times_and_listener].
      erewrite bind_ok by apply alloc_spec.
      unfold bind at 1. rewrite Hrun.
      destruct r as [[]|e|]; try reflexivity.
      unfold bind at 1, get_informer. cbn [informer].
      assert (hasBeenSeen E' (TStr T) = Ok false) as ->.
      { cbn [hasBeenSeen]. rewrite Hsame. exact Hseen. }
      reflexivity. }
    rewrite Hafter, Hmany. split; reflexivity. }
  destruct times as [[| | |k|]| | | |]; try apply Hgen;
    apply (Hgen (-1)%Z).
Qed.

Lemma after_without_replay_is_many_witness :
  let w := new_world [User []] in
  after plain_receiver (apply plain_receiver 3) None (TStr "t") (VFun 0%nat) VUndefined w
  = many plain_receiver (apply plain_receiver 3) None (TStr "t")
         (VPrim (PNum (-1))) (VFun 0%nat) w
  /\ trace (fst (after plain_receiver (apply plain_receiver 3) None (TStr "t")
                       (VFun 0%nat) VUndefined w)) = [].
Proof.
  intros w.
  apply (after_without_replay_is_many plain_receiver (apply plain_receiver 3) None
           "t" (VFun 0%nat) VUndefined w); vm_compute; reflexivity.
Defined.

Lemma addListener_filter task_this call that (F : obj) (l : fid) (w : world) :
  own_or_absent (filterListeners (informer w)) (filter_typeName F) ->
  has_key (simpleListeners (informer w)) "newListener" = false ->
  has_key (filterListeners (informer w)) "newListener" = false ->
  addListener task_this call that (TFilter F) (VFun l) w
  = (with_informer w
       (mkInformer (simpleListeners (informer w))
          (<[filter_typeName F :=
               default [] (filterListeners (informer w) !! filter_typeName F)
               ++ [(l, F)]]> (filterListeners (informer w)))
          (if has_key (filterListeners (informer w)) (filter_typeName F)
           then listenTypes (informer w)
           else listenTypes (informer w) ++ [filter_typeName F])
          (simpleSeen (informer w)) (filterSeen (informer w))),
     Ok tt).
Proof.
  intros HT H1 H2. unfold addListener.
  unfold bind at 1, get_informer. unfold bind at 1, get_heap.
  rewrite H1, H2. cbn [orb]. unfold bind at 1, ret.
  unfold bind at 1. cbn [typeName_of informer]. rewrite (read_own_or_absent _ _ HT).
  unfold has_key, set_informer.
  destruct (filterListeners (informer w) !! filter_typeName F); reflexivity.
Qed.

(** The scan of [hasBeenSeen] finds a matching entry of a list it passes,
    when no name it reads before is read off [Object.prototype]. *)
Lemma seen_in_types_found fl (F : obj) t ls : forall types,
  fl !! t = Some ls ->
  existsb (fun entry => key_subset_match (snd entry) F) ls = true ->
  In t types ->
  (forall t', In t' types -> fl !! t' = None -> Object_prototype t' = None) ->
  seen_in_types fl F types = Ok true.
Proof.
  induction types as [|t0 types IH]; intros Ht Hm Hin Hplain; [destruct Hin|].
  cbn [seen_in_types]. unfold read.
  destruct (fl !! t0) as [l0|] eqn:Ht0.
  - destruct (existsb _ l0) eqn:Hm0; [reflexivity|].
    apply IH; try assumption.
    + destruct Hin as [->|Hin]; [|exact Hin].
      rewrite Ht in Ht0. injection Ht0 as ->. rewrite Hm in Hm0. discriminate.
    + intros t' Ht'. apply Hplain. now right.
  - rewrite (Hplain t0 (or_introl eq_refl) Ht0).
    apply IH; try assumption.
    + destruct Hin as [->|Hin]; [|exact Hin]. rewrite Ht in Ht0. discriminate.
    + intros t' Ht'. apply Hplain. now right.
Qed.

(** A filter that has just been subscribed to counts as seen. *)
Lemma hasBeenSeen_own_filter (E : Informer) (F : obj) (l : fid) :
  registry_wf E ->
  Forall (fun t => Object_prototype t = None) (listenTypes E) ->
  hasBeenSeen
    (mkInformer (simpleListeners E)
       (<[filter_typeName F :=
            default [] (filterListeners E !! filter_typeName F) ++ [(l, F)]]>
          (filterListeners E))
       (if has_key (filterListeners E) (filter_typeName F)
        then listenTypes E else listenTypes E ++ [filter_typeName F])
       (simpleSeen E) (filterSeen E))
    (TFilter F) = Ok true.
Proof.
  intros (_ & H2 & _) Hplain. unfold hasBeenSeen, search_types.
  cbn [listenTypes filterListeners].
  assert (Hmatch : existsb (fun entry => key_subset_match (snd entry) F)
                     (default [] (filterListeners E !! filter_typeName F) ++ [(l, F)])
                   = true).
  { rewrite existsb_app. cbn [existsb snd]. rewrite key_subset_match_refl.
    now rewrite orb_true_r. }
  destruct (truthy_prim (PStr (filter_typeName F))) eqn:Ht.
  - cbn [seen_in_types]. unfold read at 1. rewrite lookup_insert_eq, Hmatch.
    reflexivity.
  - assert (Hempty : filter_typeName F = "").
    { cbn [truthy_prim] in Ht. apply negb_false_iff, String.eqb_eq in Ht. exact Ht. }
    eapply seen_in_types_found; [apply lookup_insert_eq | exact Hmatch | | ].
    + unfold has_key.
      destruct (filterListeners E !! filter_typeName F) as [ls|] eqn:Hls.
      * eapply H2. exact Hls.
      * apply in_or_app. right. now left.
    + intros t' Ht' _. rewrite List.Forall_forall in Hplain.
      destruct (has_key _ _); [now apply Hplain|].
      apply in_app_or in Ht' as [Ht'|[<-|[]]]; [now apply Hplain|].
      rewrite Hempty. reflexivity.
Qed.

(** X11.  [after(F, L)] with a filter object replays at once whatever
    has or has not been emitted: on a well-formed registry where no name
    involved is read off [Object.prototype] and nobody listens for
    [newListener], the wrapper is subscribed and then called, and [L] is
    called, with a context flagged [past] that carries the type name and
    the filter, and with no arguments; [filterSeen] is not consulted and
    stays as it was. *)
Theorem after_filter_always_replays
    task_this n (F : obj) (L : fid) (w : world) :
  registry_wf (informer w) ->
  own_or_absent (filterListeners (informer w)) (filter_typeName F) ->
  Forall (fun t => Object_prototype t = None) (listenTypes (informer w)) ->
  has_key (simpleListeners (informer w)) "newListener" = false ->
  has_key (filterListeners (informer w)) "newListener" = false ->
  stop_only (heap w) L ->
  let g := length (heap w) in
  let context := past_context None (filter_typeName F) (Some F) in
  exists w',
    Api.after task_this (S (S n)) (TFilter F) (VFun L) VUndefined w = (w', Ok tt)
    /\ trace w' = trace w ++ [mkCall g (Some context) []; mkCall L (Some context) []]
    /\ c_past context = true
    /\ heap w' = heap w ++ [Shim (TFilter F) (-1) L 1]
    /\ filterListeners (informer w') !! filter_typeName F
       = Some (default [] (filterListeners (informer w) !! filter_typeName F)
               ++ [(g, F)])
    /\ filterSeen (informer w') = filterSeen (informer w).
Proof.
  intros Hwf Hown Hplain H1 H2 HL g context.
  unfold Api.after, after. cbn [times_and_listener].
  erewrite bind_ok by apply alloc_spec.
  erewrite bind_ok by (apply addListener_filter; assumption).
  unfold bind at 1, get_informer.
  cbn [with_informer informer heap trace].
  rewrite hasBeenSeen_own_filter by assumption.
  unfold bind at 1, lift.
  cbn [typeName_of filter_of]. fold g. fold context.
  unfold bind at 1. rewrite apply_S. cbn zeta.
  cbn [with_trace with_informer heap informer trace].
  unfold fid in *.
  rewrite list_lookup_middle by reflexivity.
  unfold run_shim. unfold bind at 1, get_heap. unfold bind at 1, set_heap.
  cbn [with_trace with_informer heap informer trace].
  change (0 + 1)%Z with 1%Z. change (1 =? -1)%Z with false. cbn iota.
  rewrite insert_app_r_alt by (subst g; lia).
  replace (g - length (heap w))%nat with 0%nat by (subst g; lia).
  change (<[0%nat := Shim (TFilter F) (-1) L 1]> [Shim (TFilter F) (-1) L 0])
    with [Shim (TFilter F) (-1) L 1].
  unfold bind at 1, ret at 1.
  match goal with
  | |- context [apply task_this (S n) L (Some context) [] ?w1] =>
      destruct (apply_stop_only task_this n L context [] w1) as [c' Hc']
  end.
  { destruct HL as (body & Hf & Hb). exists body. split; [|exact Hb].
    cbn [heap]. now apply lookup_app_l_Some. }
  rewrite Hc'. cbn [with_trace heap informer trace].
  eexists. split; [reflexivity|].
  cbn [trace heap informer filterListeners filterSeen].
  split; [now rewrite <- app_assoc|]. split; [reflexivity|]. split; [reflexivity|].
  split; [apply lookup_insert_eq | reflexivity].
Qed.

Lemma after_filter_always_replays_witness :
  let F := [("type", PStr "t"); ("id", PNum 5)] in
  let w := new_world [User [SetStop]] in
  let context := past_context None "t" (Some F) in
  exists w',
    Api.after plain_receiver 3 (TFilter F) (VFun 0%nat) VUndefined w = (w', Ok tt)
    /\ trace w' = [mkCall 1%nat (Some context) []; mkCall 0%nat (Some context) []]
    /\ filterSeen (informer w') = [].
Proof.
  intros F w context.
  destruct (after_filter_always_replays plain_receiver 1 F 0%nat w)
    as (w' & Hrun & Htr & _ & _ & _ & Hfs).
  - apply registry_wf_new.
  - apply own_or_absent_plain. reflexivity.
  - constructor.
  - vm_compute. reflexivity.
  - vm_compute. reflexivity.
  - eexists. split; [vm_compute; reflexivity | reflexivity].
  - exists w'. split; [exact Hrun|]. split; [exact Htr | exact Hfs].
Defined.

(** ** The [newListener] announcement *)

(** [on(T, l)] for a string type while client functions that leave the
    emitter alone listen for [newListener]: they are called first, then
    [l] is registered, unless the name reads as an inherited member. *)
Lemma addListener_announces task_this n (T : string) (l : fid) (ls : list fid)
    (w : world) :
  r_type task_this = false ->
  simpleListeners (informer w) !! "newListener" = Some ls ->
  ls <> [] ->
  Forall (quiet (heap w)) ls ->
  addListener task_this (apply task_this (S n)) None (TStr T) (VFun l) w
  = let E1 := fst (queryListeners (informer w) (TStr "newListener")
                                  (VPrim (PBool true))) in
    let announced :=
      trace w ++ map (delivery (dispatch_context None "newListener" None)
                        [VPrim (PStr T); VFun (unwrapped (heap w) l);
                         VPrim (PStr T)]) ls in
    match read (simpleListeners (informer w)) T with
    | Inherited _ => (mkWorld (heap w) E1 announced, Fault not_an_array)
    | Own _ | Absent => (mkWorld (heap w) (subscribed E1 T l) announced, Ok tt)
    end.
Proof.
  intros Hsync Hls Hne Hq. unfold addListener.
  unfold bind at 1, get_informer. unfold bind at 1, get_heap.
  unfold has_key at 1. rewrite Hls. cbn [orb].
  cbn [typeName_of descriptor_value].
  unfold bind at 1. unfold bind at 1.
  rewrite (emit_quiet_simple task_this n "newListener" _ ls w Hsync
             ltac:(discriminate) Hls Hne Hq).
  unfold ret at 1. unfold bind at 1, get_informer. cbn [informer].
  cbn [simpleListeners queryListeners fst]. cbn zeta.
  unfold read, subscribed, has_key, set_informer.
  cbn [simpleListeners filterListeners listenTypes simpleSeen filterSeen
       queryListeners fst].
  destruct (simpleListeners (informer w) !! T); [reflexivity|].
  destruct (Object_prototype T); reflexivity.
Qed.

(** X12.  While client functions that leave the emitter alone listen for
    [newListener], [on(T, L)] first calls each of them once, in order,
    with the type, the function behind [L] ([L.listener] when [L] is a
    counting wrapper) and the type name.  Then it registers [L] as the
    last listener of [T]; or, when [T] reads as a member inherited from
    [Object.prototype], it throws and registers nothing.  So a listener
    added for [newListener] itself is not told of its own registration,
    and a registration that fails has been announced. *)
Theorem on_announces_before_it_registers
    task_this n (T : string) (L : fid) (ls : list fid) (w : world) :
  r_type task_this = false ->
  simpleListeners (informer w) !! "newListener" = Some ls ->
  ls <> [] ->
  Forall (quiet (heap w)) ls ->
  exists w' r,
    Api.on task_this (S n) (TStr T) (VFun L) w = (w', r)
    /\ trace w'
       = trace w ++ map (delivery (dispatch_context None "newListener" None)
                           [VPrim (PStr T); VFun (unwrapped (heap w) L);
                            VPrim (PStr T)]) ls
    /\ heap w' = heap w
    /\ match read (simpleListeners (informer w)) T with
       | Inherited _ =>
           r = Fault not_an_array
           /\ simpleListeners (informer w') = simpleListeners (informer w)
       | Own _ | Absent =>
           r = Ok tt
           /\ simpleListeners (informer w') !! T
              = Some (default [] (simpleListeners (informer w) !! T) ++ [L])
       end.
Proof.
  intros Hsync Hls Hne Hq. unfold Api.on.
  rewrite (addListener_announces task_this n T L ls w Hsync Hls Hne Hq). cbn zeta.
  destruct (read (simpleListeners (informer w)) T) as [own|m|];
    eexists _, _; (split; [reflexivity|]);
    cbn [trace informer heap]; (split; [reflexivity|]); (split; [reflexivity|]);
    (split; [reflexivity|]);
    try reflexivity;
    unfold subscribed; cbn [simpleListeners queryListeners fst];
    apply lookup_insert_eq.
Qed.

Lemma on_announces_before_it_registers_witness :
  let w := mkWorld [User []; User [SetStop]]
             (mkInformer {["newListener" := [1%nat]]} ∅ ["newListener"] ∅ [])
             [] in
  (exists w',
      Api.on plain_receiver 1 (TStr "newListener") (VFun 0%nat) w = (w', Ok tt)
      /\ trace w'
         = [mkCall 1%nat (Some (dispatch_context None "newListener" None))
              [VPrim (PStr "newListener"); VFun 0%nat; VPrim (PStr "newListener")]]
      /\ simpleListeners (informer w') !! "newListener" = Some [1%nat; 0%nat])
  /\ (exists w',
        Api.on plain_receiver 1 (TStr "toString") (VFun 0%nat) w
        = (w', Fault not_an_array)
        /\ trace w'
           = [mkCall 1%nat (Some (dispatch_context None "newListener" None))
                [VPrim (PStr "toString"); VFun 0%nat; VPrim (PStr "toString")]]
        /\ simpleListeners (informer w') = simpleListeners (informer w)).
Proof.
  intros w. split.
  - destruct (on_announces_before_it_registers plain_receiver 0 "newListener" 0%nat
                [1%nat] w) as (w' & r & Hrun & Htr & Hh & Hend).
    + reflexivity.
    + vm_compute. reflexivity.
    + discriminate.
    + constructor; [|constructor]. exists [SetStop]. split; reflexivity.
    + change (read (simpleListeners (informer w)) "newListener")
        with (Own [1%nat]) in Hend.
      destruct Hend as [-> Hls].
      exists w'. split; [exact Hrun|]. split; [exact Htr|].
      etransitivity; [exact Hls | vm_compute; reflexivity].
  - destruct (on_announces_before_it_registers plain_receiver 0 "toString" 0%nat
                [1%nat] w) as (w' & r & Hrun & Htr & Hh & Hend).
    + reflexivity.
    + vm_compute. reflexivity.
    + discriminate.
    + constructor; [|constructor]. exists [SetStop]. split; reflexivity.
    + change (read (simpleListeners (informer w)) "toString")
        with (@Inherited (list fid) (ProtoFunction 0)) in Hend.
      destruct Hend as [-> Hls].
      exists w'. split; [exact Hrun|]. split; [exact Htr | exact Hls].
Defined.

Lemma quiet_grows h c f : quiet h f -> quiet (h ++ [c]) f.
Proof.
  intros (body & Hf & Hb). exists body. split; [|exact Hb].
  unfold fid in *. apply lookup_app_l_Some. exact Hf.
Qed.

(** X13.  [many(T, k, L)], the method behind [once] too, announces the
    function [L], not the counting wrapper it registers: for a string
    type whose name is not read off [Object.prototype], the listeners of
    [newListener] (client functions that leave the emitter alone) are
    called with the type, [L] and the type name, and what is added to the
    listeners of [T] is the new wrapper around [L]. *)
Theorem many_announces_the_original_listener
    task_this n (T : string) (k : Z) (L : fid) (ls : list fid) (w : world) :
  r_type task_this = false ->
  own_or_absent (simpleListeners (informer w)) T ->
  simpleListeners (informer w) !! "newListener" = Some ls ->
  ls <> [] ->
  Forall (quiet (heap w)) ls ->
  let g := length (heap w) in
  exists w',
    Api.once task_this (S n) (TStr T) (VPrim (PNum k)) (VFun L) w = (w', Ok tt)
    /\ trace w'
       = trace w ++ map (delivery (dispatch_context None "newListener" None)
                           [VPrim (PStr T); VFun L; VPrim (PStr T)]) ls
    /\ heap w' = heap w ++ [Shim (TStr T) k L 0]
    /\ simpleListeners (informer w') !! T
       = Some (default [] (simpleListeners (informer w) !! T) ++ [g]).
Proof.
  intros Hsync Hown Hls Hne Hq g. eexists. split.
  - unfold Api.once, many. cbn [times_and_listener].
    erewrite bind_ok by apply alloc_spec.
    rewrite addListener_announces with (ls := ls).
    + cbn zeta. cbn [informer]. rewrite (read_own_or_absent _ _ Hown).
      destruct (simpleListeners (informer w) !! T); reflexivity.
    + exact Hsync.
    + exact Hls.
    + exact Hne.
    + cbn [heap]. eapply Forall_impl; [exact Hq|].
      intros f Hf. apply quiet_grows. exact Hf.
  - cbn [trace informer heap]. split.
    + unfold unwrapped, fid in *.
      rewrite list_lookup_middle by reflexivity. reflexivity.
    + split; [reflexivity|].
      unfold subscribed. cbn [simpleListeners queryListeners fst].
      apply lookup_insert_eq.
Qed.

Lemma many_announces_the_original_listener_witness :
  let w := mkWorld [User []; User [SetStop]]
             (mkInformer {["newListener" := [1%nat]]} ∅ ["newListener"] ∅ [])
             [] in
  exists w',
    Api.once plain_receiver 1 (TStr "t") (VPrim (PNum 3)) (VFun 0%nat) w = (w', Ok tt)
    /\ trace w'
       = [mkCall 1%nat (Some (dispatch_context None "newListener" None))
            [VPrim (PStr "t"); VFun 0%nat; VPrim (PStr "t")]]
    /\ heap w' = [User []; User [SetStop]; Shim (TStr "t") 3 0%nat 0]
    /\ simpleListeners (informer w') !! "t" = Some [2%nat].
Proof.
  intros w.
  destruct (many_announces_the_original_listener plain_receiver 0 "t" 3 0%nat
              [1%nat] w) as (w' & Hrun & Htr & Hh & Hls).
  - reflexivity.
  - apply own_or_absent_plain. reflexivity.
  - vm_compute. reflexivity.
  - discriminate.
  - constructor; [|constructor]. exists [SetStop]. split; reflexivity.
  - exists w'. split; [exact Hrun|]. split; [exact Htr|]. split; [exact Hh|].
    etransitivity; [exact Hls | vm_compute; reflexivity].
Defined.

(** ** Type names that objects inherit a member for *)

Lemma read_inherited {A} (object : gmap string A) name m :
  read object name = Inherited m ->
  object !! name = None /\ Object_prototype name = Some m.
Proof.
  unfold read. destruct (object !! name); [discriminate|].
  destruct (Object_prototype name); [|discriminate].
  intros H. injection H as ->. split; reflexivity.
Qed.

(** X18.  Under a type name that reads as a member inherited from
    [Object.prototype] (a string type such as 'toString', or a filter
    whose [type] is such a name), no subscription succeeds: where nobody
    listens for [newListener], [on] throws a TypeError and leaves
    everything as it was, and [many]/[once] and [after] throw it after
    building their wrapper, with the emitter unchanged and nothing
    called.  Such a string type counts as seen on an emitter that never
    emitted it. *)
Theorem subscription_under_inherited_name_throws
    task_this call that (type : descriptor) (l : fid) (m : inherited_member)
    (w : world) :
  has_key (simpleListeners (informer w)) "newListener" = false ->
  has_key (filterListeners (informer w)) "newListener" = false ->
  match type with
  | TStr T => read (simpleListeners (informer w)) T = Inherited m
  | TFilter F => read (filterListeners (informer w)) (filter_typeName F) = Inherited m
  end ->
  exists msg,
    addListener task_this call that type (VFun l) w = (w, Fault (TypeError msg))
    /\ (forall k, exists w',
          many task_this call that type (VPrim (PNum k)) (VFun l) w
          = (w', Fault (TypeError msg))
          /\ informer w' = informer w /\ trace w' = trace w)
    /\ (forall k, exists w',
          after task_this call that type (VPrim (PNum k)) (VFun l) w
          = (w', Fault (TypeError msg))
          /\ informer w' = informer w /\ trace w' = trace w)
    /\ (forall T, type = TStr T ->
          simpleSeen (informer w) !! T = None ->
          hasBeenSeen (informer w) type = Ok true).
Proof.
  intros H1 H2 Hread.
  assert (Hadd : forall g w0,
             informer w0 = informer w ->
             addListener task_this call that type (VFun g) w0
             = (w0, Fault not_an_array)).
  { intros g [h0 E0 t0] Hw0. cbn [informer] in Hw0. subst E0. unfold addListener.
    unfold bind at 1, get_informer. unfold bind at 1, get_heap.
    cbn [informer heap trace]. rewrite H1, H2. cbn [orb]. unfold bind at 1, ret.
    unfold bind at 1, get_informer. cbn [informer].
    destruct type as [T|F]; cbn [typeName_of]; rewrite Hread; reflexivity. }
  eexists. split; [apply Hadd; reflexivity|].
  split; [|split].
  - intros k. eexists. unfold many. cbn [times_and_listener].
    erewrite bind_ok by apply alloc_spec.
    rewrite Hadd by reflexivity. repeat split.
  - intros k. eexists. unfold after. cbn [times_and_listener].
    erewrite bind_ok by apply alloc_spec.
    unfold bind at 1. rewrite Hadd by reflexivity. repeat split.
  - intros T -> Hseen. apply read_inherited in Hread as [_ Hp].
    cbn [hasBeenSeen]. unfold read. rewrite Hseen, Hp. reflexivity.
Qed.

Lemma subscription_under_inherited_name_throws_witness :
  let w := new_world [User []] in
  exists msg,
    Api.on plain_receiver 3 (TStr "toString") (VFun 0%nat) w
    = (w, Fault (TypeError msg))
    /\ hasBeenSeen (informer w) (TStr "toString") = Ok true.
Proof.
  intros w.
  destruct (subscription_under_inherited_name_throws plain_receiver
              (apply plain_receiver 3) None (TStr "toString") 0%nat
              (ProtoFunction 0) w)
    as (msg & Hon & _ & _ & Hseen).
  - reflexivity.
  - reflexivity.
  - reflexivity.
  - exists msg. split; [exact Hon|]. apply (Hseen "toString"); reflexivity.
Defined.

(** X19.  Under a string type that names an inherited function of
    non-zero [length] (such as 'constructor' or 'hasOwnProperty') and
    has no listener list of its own, the registry lookup finds that
    function: [listeners(T)] returns as many [undefined] entries as the
    function's [length], [emit(T, ...)] throws a TypeError before calling
    anything, whatever the receiver of the tasks and the arguments,
    [removeListener(T, g)] throws a TypeError, and
    [removeAllListeners(T)] throws 'listener must be a function'; apart
    from the seen mark of the query nothing changes. *)
Theorem emission_under_inherited_function_name_throws
    task_this call that (T : string) (n : nat) (args : list value) (g : fid)
    (w : world) :
  Object_prototype T = Some (ProtoFunction (S n)) ->
  simpleListeners (informer w) !! T = None ->
  snd (listeners (informer w) (TStr T)) = Ok (repeat (None, None) (S n))
  /\ (exists msg,
        emit task_this call that (TStr T) args w
        = (with_informer w
             (fst (queryListeners (informer w) (TStr T) (VPrim (PBool true)))),
           Fault (TypeError msg)))
  /\ (exists msg,
        removeListener task_this call that (TStr T) (VFun g) w
        = (w, Fault (TypeError msg)))
  /\ removeAllListeners task_this call that (TStr T) w
     = (w, Fault (TypeError "listener must be a function")).
Proof.
  intros Hp Hnone.
  assert (Hread : read (simpleListeners (informer w)) T
                  = Inherited (ProtoFunction (S n))).
  { unfold read. now rewrite Hnone, Hp. }
  assert (HT : T <> "") by (intros ->; discriminate Hp).
  assert (Hentries : simple_entries (informer w) T = repeat (None, None) (S n)).
  { unfold simple_entries. cbn [truthy_prim]. rewrite (not_empty_eqb _ HT).
    cbn [negb]. now rewrite Hread. }
  split; [|split; [|split]].
  - unfold listeners, queryListeners. cbn [snd filter_of typeName_of q_entries].
    now rewrite Hentries.
  - eexists.
    apply emit_undefined_entry
      with (q := mkQuery T None (repeat (None, None) (S n))) (o := None)
           (rest := repeat (None, None) n).
    + unfold queryListeners. cbn [snd filter_of typeName_of].
      now rewrite Hentries.
    + reflexivity.
  - eexists. unfold removeListener, bind at 1, get_informer. rewrite Hread.
    reflexivity.
  - unfold removeAllListeners, bind at 1, get_informer. rewrite Hread.
    reflexivity.
Qed.

Lemma emission_under_inherited_function_name_throws_witness :
  let w := new_world [User []] in
  snd (listeners (informer w) (TStr "constructor")) = Ok [(None, None)]
  /\ (exists msg,
        snd (Api.emit plain_receiver 3 (TStr "constructor") [VFun 0%nat] w)
        = Fault (TypeError msg))
  /\ removeAllListeners plain_receiver (apply plain_receiver 3) None
       (TStr "constructor") w
     = (w, Fault (TypeError "listener must be a function")).
Proof.
  intros w.
  destruct (emission_under_inherited_function_name_throws plain_receiver
              (apply plain_receiver 3) None "constructor" 0 [VFun 0%nat] 0%nat w)
    as (Hl & (msg & Hemit) & _ & Hall).
  - reflexivity.
  - reflexivity.
  - split; [exact Hl|]. split; [|exact Hall].
    exists msg. unfold Api.emit. now rewrite Hemit.
Defined.

(** ** The array helpers *)

Section ArrayFacts.
Import BlastArray.

Lemma loose_eq_refl (x : prim) : loose_eq x x = true.
Proof.
  destruct x as [| |b|n|s]; cbn.
  - reflexivity.
  - reflexivity.
  - apply Z.eqb_refl.
  - apply Z.eqb_refl.
  - apply String.eqb_refl.
Qed.

Lemma loose_eq_sym (x y : prim) : loose_eq x y = loose_eq y x.
Proof.
  destruct x as [| |b|n|s], y as [| |b'|n'|s']; cbn; try reflexivity;
    try apply Z.eqb_sym; try apply String.eqb_sym;
    repeat match goal with
           | |- context [string_to_number ?s] => destruct (string_to_number s)
           end;
    try reflexivity; apply Z.eqb_sym.
Qed.

Lemma filter_all {A} (f : A -> bool) (l : list A) :
  (forall x, In x l -> f x = true) -> List.filter f l = l.
Proof.
  induction l as [|a l IH]; intros H; [reflexivity|].
  cbn [List.filter]. rewrite (H a) by now left.
  f_equal. apply IH. intros x Hx. apply H. now right.
Qed.

Lemma filter_none {A} (f : A -> bool) (l : list A) :
  (forall x, In x l -> f x = false) -> List.filter f l = [].
Proof.
  induction l as [|a l IH]; intros H; [reflexivity|].
  cbn [List.filter]. rewrite (H a) by now left.
  apply IH. intros x Hx. apply H. now right.
Qed.

Lemma has_match_self C (l : list prim) (x : prim) :
  In x l -> has_match C l x = true.
Proof.
  intros Hx. unfold has_match. apply existsb_exists.
  exists x. split; [exact Hx | apply loose_eq_refl].
Qed.

(** The loop of [clean] at index [i]: what lies before [i] stays, what
    lies from [i] on is filtered. *)
Lemma clean_loop_spec (d : prim) : forall steps i (l : list prim),
  (length l - i <= steps)%nat ->
  clean_loop steps i l d
  = take i l ++ List.filter (fun x => negb (strict_eq x d)) (drop i l).
Proof.
  induction steps as [|n IH]; intros i l Hlen.
  - cbn [clean_loop]. rewrite drop_ge by lia. rewrite take_ge by lia.
    cbn [List.filter]. now rewrite app_nil_r.
  - cbn [clean_loop]. destruct (l !! i) as [x|] eqn:Hx.
    + pose proof (lookup_lt_Some _ _ _ Hx) as Hi.
      rewrite (drop_S l x i Hx). cbn [List.filter].
      destruct (strict_eq x d) eqn:Heq; cbn [negb].
      * rewrite IH.
        -- unfold splice1.
           rewrite take_app_length' by (rewrite length_take; lia).
           rewrite drop_app_length' by (rewrite length_take; lia).
           reflexivity.
        -- unfold splice1. rewrite length_app, length_take, length_drop. lia.
      * rewrite IH by lia. rewrite (take_S_r l i x Hx).
        rewrite <- app_assoc. reflexivity.
    + apply lookup_ge_None in Hx.
      rewrite drop_ge by lia. rewrite take_ge by lia.
      cbn [List.filter]. now rewrite app_nil_r.
Qed.

(** X14.  [clean(deleteValue)] returns the array without the elements
    strictly equal to [deleteValue], the others in their order: stepping
    the index back after each [splice] makes the loop miss none, adjacent
    hits included. *)
Theorem clean_removes_every_strict_match (this : list prim) (deleteValue : prim) :
  clean this deleteValue
  = List.filter (fun x => negb (strict_eq x deleteValue)) this.
Proof.
  unfold clean. rewrite clean_loop_spec by lia.
  rewrite take_0, drop_0. reflexivity.
Qed.

(** X15.  [shared] and [difference] against the same array and cast
    function split the receiver: every element lands in exactly one of the
    two results, each keeping the receiver's order and duplicates. *)
Theorem shared_and_difference_split_the_array
    (this : list prim) (arr : prim + list prim) (C : option (prim -> prim)) :
  Permutation (shared this arr C ++ difference this arr C) this
  /\ (length (shared this arr C) + length (difference this arr C))%nat
     = length this
  /\ forall x, In x (shared this arr C) -> In x (difference this arr C) -> False.
Proof.
  unfold shared, difference. split; [|split].
  - induction this as [|a l IH]; [constructor|].
    cbn [List.filter]. destruct (has_match C (as_array arr) a); cbn [negb app].
    + now constructor.
    + etransitivity; [symmetry; apply Permutation_middle|]. now constructor.
  - induction this as [|a l IH]; [reflexivity|].
    cbn [List.filter]. destruct (has_match C (as_array arr) a);
      cbn [negb length]; lia.
  - intros x H1 H2.
    apply List.filter_In in H1 as [_ H1]. apply List.filter_In in H2 as [_ H2].
    rewrite H1 in H2. discriminate.
Qed.

(** X16.  An array of primitives compared with itself, without a cast
    function: [shared] returns all of it and [difference] nothing, as
    [==] holds between a value and itself (no element is NaN here:
    numbers are integers). *)
Theorem array_against_itself (this : list prim) :
  shared this (inr this) None = this /\ difference this (inr this) None = [].
Proof.
  unfold shared, difference. cbn [as_array]. split.
  - apply filter_all. intros x Hx. now apply has_match_self.
  - apply filter_none. intros x Hx. now rewrite has_match_self.
Qed.

(** X17.  [exclusive(arr, CastFunction)] on two arrays returns no element
    that has a match, under [==], on the other side: what it returns from
    the receiver matches nothing in [arr], and what it returns from [arr]
    matches nothing in the receiver.  The cast function plays no part. *)
Theorem exclusive_returns_no_common_element
    (this l : list prim) (C : option (prim -> prim)) :
  exists r,
    exclusive this (inr l) C = Ok r
    /\ forall x, In x r ->
         (In x this /\ has_match None l x = false)
         \/ (In x l /\ has_match None this x = false).
Proof.
  eexists. split; [reflexivity|].
  intros x Hx. apply in_app_or in Hx as [Hx|Hx];
    unfold difference, shared in Hx; cbn [as_array] in Hx;
    apply List.filter_In in Hx as [Hin Hno]; apply negb_true_iff in Hno.
  - left. split; [exact Hin|].
    destruct (has_match None l x) eqn:Hm; [|reflexivity].
    rewrite has_match_self in Hno; [discriminate|].
    apply List.filter_In. split; assumption.
  - right. split; [exact Hin|].
    destruct (has_match None this x) eqn:Hm; [|reflexivity].
    unfold has_match in Hm. apply existsb_exists in Hm as (v & Hv & Hxv).
    cbn [cast_with] in Hxv.
    assert (Hshared : In v (List.filter (has_match None l) this)).
    { apply List.filter_In. split; [exact Hv|].
      unfold has_match. apply existsb_exists. exists x.
      split; [exact Hin|]. cbn [cast_with]. now rewrite loose_eq_sym. }
    assert (Hyes : has_match None (List.filter (has_match None l) this) x = true).
    { unfold has_match. apply existsb_exists. exists v. split; assumption. }
    rewrite Hyes in Hno. discriminate.
Qed.

End ArrayFacts.
